(** * utils.hpp: logical clock, alignment arithmetic, thread affinity

    A shallow embedding of the parts of [src/utils.hpp] that carry
    behaviour: the replication counter [repli_timestamp_t], the alignment
    templates [ceil_aligned], [ceil_divide], [floor_aligned] and
    [ceil_modulo], [divides], [all_match_predicate], the exception
    [interrupted_exc_t], the mixin [home_thread_mixin_t] and the scoped
    thread switcher [on_thread_t].

    Fixed-width integers are integers of [Z] with the wrap-around of the
    C++ type written out.  The alignment templates come at one integer
    type for both arguments and, in [Template], at independent argument
    types with the promotions and conversions of C++; the first are shown
    to be the second at [T1 = T2].  Functions that the header only declares
    ([repli_max], the constructors and destructor of [on_thread_t], the
    checking variant of [assert_thread]) are modelled from the
    specification and marked as such. *)

From Stdlib Require Import ZArith Bool String Lia.
From Stdlib Require Import NArith List.
Import ListNotations.

Local Open Scope Z_scope.

(** ** Fixed-width integer arithmetic *)

Module CInt.

  (** The integer types the templates are instantiated at.  Types of lower
      rank than [int] are promoted before any arithmetic and are left out. *)
Inductive int_type : Set :=
  | Int32     (* int, int32_t *)
  | UInt32    (* unsigned, uint32_t *)
  | Int64     (* int64_t, off64_t *)
  | UInt64.   (* uint64_t, size_t *)

Definition bits (ty : int_type) : Z :=
    match ty with
    | Int32 | UInt32 => 32
    | Int64 | UInt64 => 64
    end.

Definition is_signed (ty : int_type) : bool :=
    match ty with
    | Int32 | Int64 => true
    | UInt32 | UInt64 => false
    end.

Definition min_value (ty : int_type) : Z :=
    if is_signed ty then - 2 ^ (bits ty - 1) else 0.

Definition max_value (ty : int_type) : Z :=
    if is_signed ty then 2 ^ (bits ty - 1) - 1 else 2 ^ bits ty - 1.

Definition representable (ty : int_type) (z : Z) : bool :=
    (min_value ty <=? z) && (z <=? max_value ty).

  (** The outcome of an arithmetic operation whose mathematical result is
      [z]: unsigned types reduce modulo [2 ^ bits]; a signed result out of
      range is undefined behaviour, rendered as [None]. *)
Definition arith (ty : int_type) (z : Z) : option Z :=
    if is_signed ty
    then if representable ty z then Some z else None
    else Some (z mod 2 ^ bits ty).

Definition add (ty : int_type) (a b : Z) : option Z := arith ty (a + b).
Definition sub (ty : int_type) (a b : Z) : option Z := arith ty (a - b).

  (** [a % b]: truncated remainder; undefined for a zero divisor and when
      the quotient is not representable. *)
Definition rem (ty : int_type) (a b : Z) : option Z :=
    if b =? 0 then None
    else if is_signed ty && (a =? min_value ty) && (b =? -1) then None
    else Some (Z.rem a b).

  (** The values of the type. *)
Definition in_range (ty : int_type) (z : Z) : Prop :=
    min_value ty <= z <= max_value ty.

  (** [a / b]: the quotient truncated towards zero; undefined for a zero
      divisor and when the quotient is not representable. *)
Definition div (ty : int_type) (a b : Z) : option Z :=
    if b =? 0 then None
    else if is_signed ty && (a =? min_value ty) && (b =? -1) then None
    else Some (Z.quot a b).

Definition bind {A B : Type} (c : option A) (k : A -> option B) : option B :=
    match c with
    | Some a => k a
    | None => None
    end.

End CInt.

Declare Scope cint_scope.
Delimit Scope cint_scope with cint.
Notation "x <- c ;; k" := (CInt.bind c (fun x => k))
  (at level 100, c at next level, right associativity) : cint_scope.

(** ** [repli_timestamp_t] *)

Definition uint32_modulus : Z := 2 ^ 32.
Definition UINT32_MAX : Z := uint32_modulus - 1.

(** Conversion of an integer to [uint32_t]. *)
Definition to_uint32 (z : Z) : Z := z mod uint32_modulus.

Record repli_timestamp_t : Set := mk_repli_timestamp { time : Z }.

(** A value of the class holds a [uint32_t]. *)
Definition repli_timestamp_wf (t : repli_timestamp_t) : Prop :=
  0 <= time t < uint32_modulus.

Module ReplTimestamp.

Definition op_eq (x t : repli_timestamp_t) : bool := time x =? time t.
Definition op_ne (x t : repli_timestamp_t) : bool := negb (time x =? time t).
Definition op_lt (x t : repli_timestamp_t) : bool := time x <? time t.
Definition op_gt (x t : repli_timestamp_t) : bool := time x >? time t.
Definition op_le (x t : repli_timestamp_t) : bool := time x <=? time t.
Definition op_ge (x t : repli_timestamp_t) : bool := time x >=? time t.

  (** [t.time = time + 1;] the sum is stored into a [uint32_t]. *)
Definition next (x : repli_timestamp_t) : repli_timestamp_t :=
    {| time := to_uint32 (time x + 1) |}.

End ReplTimestamp.

(** Modelled from the spec: the body of [repli_max] is not in the header,
    which only declares it ("Like std::max").  The specification gives
    "returns the numerically greater of x, y"; the shape is that of
    [std::max], which returns its first argument unless it is smaller.
    The header's comment calls the operation "technically not
    associative": whether it is depends on a body that is not at hand, and
    nothing is derived about it here. *)
Definition repli_max (x y : repli_timestamp_t) : repli_timestamp_t :=
  if ReplTimestamp.op_lt x y then y else x.

(** ** Alignment arithmetic *)

Section Aligned.

Local Open Scope cint_scope.

  (** [ceil_aligned<T, T>] at an integer type [ty]:
      [value + alignment - (((value + alignment - 1) % alignment) + 1)]. *)
Definition ceil_aligned (ty : CInt.int_type) (value alignment : Z) : option Z :=
    s  <- CInt.add ty value alignment ;;
    s1 <- CInt.sub ty s 1 ;;
    r  <- CInt.rem ty s1 alignment ;;
    r1 <- CInt.add ty r 1 ;;
    CInt.sub ty s r1.

End Aligned.

(** ** [interrupted_exc_t] *)

(** The class declares no data member and its base [std::exception] holds
    none either: it has a single value. *)
Inductive interrupted_exc_t : Set := interrupted_exc.

Definition what (e : interrupted_exc_t) : string := "interrupted".

(** ** Thread registry *)

(** Thread ids are [int]s; [INVALID_THREAD] stands for "no thread". *)
Definition ThreadId : Set := Z.
Definition INVALID_THREAD : ThreadId := -1.

(** The result of an operation that asks the registry for a migration. *)
Inductive result (A : Type) : Type :=
| Ok (a : A)
| RuntimeUnavailable.
Arguments Ok {A} a.
Arguments RuntimeUnavailable {A}.

(** Modelled from the spec: the thread registry is an external collaborator
    of which the header shows nothing.  The specification gives its
    interface: [current_thread() -> ThreadId], synchronous, and
    [request_switch(target) -> Result<(), RuntimeUnavailable>], after which
    the caller runs on [target] on success.  The registry's state is passed
    explicitly. *)
Class ThreadRegistry (R : Type) : Type := {
  current_thread : R -> ThreadId;
  request_switch : ThreadId -> R -> result R
}.

(** Modelled from the spec: "resumes execution with the caller now running
    on [target] on success". *)
Class ThreadRegistryLaws (R : Type) `{ThreadRegistry R} : Prop := {
  request_switch_lands :
    forall (target : ThreadId) (r r' : R),
      request_switch target r = Ok r' -> current_thread r' = target
}.

(** A registry for a pool of [pool_size] workers that serves every request
    for one of its workers until it shuts down. *)
Record pool_registry : Set := mk_pool_registry {
  pool_size : Z;
  running_on : ThreadId;
  shutting_down : bool
}.

Definition pool_request_switch (target : ThreadId) (r : pool_registry)
  : result pool_registry :=
  if shutting_down r then RuntimeUnavailable
  else if (0 <=? target) && (target <? pool_size r)
       then Ok {| pool_size := pool_size r;
                  running_on := target;
                  shutting_down := false |}
       else RuntimeUnavailable.

#[export] Instance pool_ThreadRegistry : ThreadRegistry pool_registry := {
  current_thread := running_on;
  request_switch := pool_request_switch
}.

(** A pool of four workers, the task running on [t]. *)
Definition four_workers_on (t : ThreadId) : pool_registry :=
  {| pool_size := 4; running_on := t; shutting_down := false |}.

(** ** [home_thread_mixin_t] *)

Record home_thread_mixin_t : Set := mk_home_thread_mixin {
  real_home_thread : ThreadId
}.

Definition home_thread (m : home_thread_mixin_t) : ThreadId :=
  real_home_thread m.

(** [explicit home_thread_mixin_t(int specified_home_thread)].
    Modelled from the spec: binds to the caller-supplied thread id. *)
Definition home_thread_mixin_explicit (specified_home_thread : ThreadId)
  : home_thread_mixin_t :=
  {| real_home_thread := specified_home_thread |}.

(** The build configuration: [NDEBUG] is defined in the performance build. *)
Inductive build_mode : Set := Diagnostics | Performance.

(** What a call of a [void] function that may abort the process does. *)
Inductive outcome (R : Type) : Type :=
| Returns (r : R)
| Terminated.
Arguments Returns {R} r.
Arguments Terminated {R}.

Section Affinity.

Context {R : Type} `{ThreadRegistry R}.

  (** [home_thread_mixin_t()].
      Modelled from the spec: binds to the thread the registry reports as
      current at construction time. *)
Definition home_thread_mixin_default (r : R) : home_thread_mixin_t :=
    {| real_home_thread := current_thread r |}.

  (** [void assert_thread() const { }] under [NDEBUG]. *)
Definition assert_thread_ndebug (m : home_thread_mixin_t) (r : R) : outcome R :=
    Returns r.

  (** Modelled from the spec: the checking [assert_thread] is only declared
      in the header.  It compares the registry's current thread with
      [home_thread()] and terminates the process if they differ. *)
Definition assert_thread_debug (m : home_thread_mixin_t) (r : R) : outcome R :=
    if current_thread r =? home_thread m then Returns r else Terminated.

  (** The [#ifndef NDEBUG] switch of the header. *)
Definition assert_thread (b : build_mode) (m : home_thread_mixin_t) (r : R)
    : outcome R :=
    match b with
    | Diagnostics => assert_thread_debug m r
    | Performance => assert_thread_ndebug m r
    end.

  (** ** [on_thread_t] *)

  (** The guard is a [home_thread_mixin_t] whose home thread is the thread
      the task was on when the guard was made (its origin).
      Modelled from the spec: the guard also remembers its [target]. *)
Record on_thread_t : Set := mk_on_thread {
    on_thread_base : home_thread_mixin_t;
    target : ThreadId
  }.

Definition origin (g : on_thread_t) : ThreadId := home_thread (on_thread_base g).

  (** [explicit on_thread_t(int thread)].
      Modelled from the spec: records [origin := current_thread()]; when
      [origin == target] no migration takes place; otherwise a migration to
      [target] is requested, and when the registry cannot serve it the
      guard is never constructed and the task stays where it was. *)
Definition on_thread_ctor (thread : ThreadId) (r : R) : result (on_thread_t * R) :=
    let g := {| on_thread_base := home_thread_mixin_default r; target := thread |} in
    if origin g =? target g then Ok (g, r)
    else match request_switch thread r with
         | Ok r' => Ok (g, r')
         | RuntimeUnavailable => RuntimeUnavailable
         end.

  (** [~on_thread_t()].
      Modelled from the spec: requests a migration back to [origin],
      skipped if [origin == target]. *)
Definition on_thread_dtor (g : on_thread_t) (r : R) : result R :=
    if origin g =? target g then Ok r
    else request_switch (origin g) r.

End Affinity.

(** ** The other alignment templates, [divides], [all_match_predicate] *)

Section MoreAligned.

Local Open Scope cint_scope.

(** [ceil_divide<T, T>]: [(dividend + alignment - 1) / alignment]. *)
Definition ceil_divide (ty : CInt.int_type) (dividend alignment : Z) : option Z :=
  s  <- CInt.add ty dividend alignment ;;
  s1 <- CInt.sub ty s 1 ;;
  CInt.div ty s1 alignment.

(** [floor_aligned<T, T>]: [value - (value % alignment)]. *)
Definition floor_aligned (ty : CInt.int_type) (value alignment : Z) : option Z :=
  r <- CInt.rem ty value alignment ;;
  CInt.sub ty value r.

(** [ceil_modulo<T, T>]:
    [T1 x = (value + alignment - 1) % alignment;
     return value + alignment - ((x < 0 ? x + alignment : x) + 1);] *)
Definition ceil_modulo (ty : CInt.int_type) (value alignment : Z) : option Z :=
  s  <- CInt.add ty value alignment ;;
  s1 <- CInt.sub ty s 1 ;;
  x  <- CInt.rem ty s1 alignment ;;
  s' <- CInt.add ty value alignment ;;
  x' <- (if x <? 0 then CInt.add ty x alignment else Some x) ;;
  x1 <- CInt.add ty x' 1 ;;
  CInt.sub ty s' x1.

(** [inline bool divides(int64_t x, int64_t y) { return y % x == 0; }] *)
Definition divides (x y : Z) : option bool :=
  r <- CInt.rem CInt.Int64 y x ;;
  Some (r =? 0).

End MoreAligned.

(** [all_match_predicate(begin, end, f)]: the range [begin, end) is the list
    of its elements; [res &= f( *begin)] for each of them, from [res = true]. *)
Definition all_match_predicate {A : Type} (range : list A) (f : A -> bool) : bool :=
  fold_left (fun (res : bool) (x : A) => res && f x) range true.

(** [all_in_container_match_predicate(container, f)]. *)
Definition all_in_container_match_predicate {A : Type} (container : list A)
  (f : A -> bool) : bool :=
  all_match_predicate container f.

(** ** The templates at independent argument types

    The templates take two type parameters.  When these differ, or are
    narrower than [int], the operands are first promoted and brought to a
    common type, and the result is converted back to [T1]; the data model
    is LP64 ([int] of 32 bits, [long] of 64). *)

Module Template.
Import CInt.

(** The integer types an argument can have. *)
Inductive c_type : Set :=
| I8                       (* int8_t *)
| U8                       (* uint8_t *)
| I16                      (* int16_t *)
| U16                      (* uint16_t *)
| Arith (ty : int_type).   (* the types of the rank of int and above *)

Definition c_bits (T : c_type) : Z :=
  match T with
  | I8 | U8 => 8
  | I16 | U16 => 16
  | Arith ty => bits ty
  end.

Definition c_signed (T : c_type) : bool :=
  match T with
  | I8 | I16 => true
  | U8 | U16 => false
  | Arith ty => is_signed ty
  end.

Definition c_min (T : c_type) : Z :=
  if c_signed T then - 2 ^ (c_bits T - 1) else 0.

Definition c_max (T : c_type) : Z :=
  if c_signed T then 2 ^ (c_bits T - 1) - 1 else 2 ^ c_bits T - 1.

Definition c_in_range (T : c_type) (z : Z) : Prop := c_min T <= z <= c_max T.

(** Conversion of an integer to [T]: the value of [T] congruent to it
    modulo [2 ^ bits] (for a signed [T] this is what GCC and Clang do, and
    what C++20 requires). *)
Definition convert (T : c_type) (z : Z) : Z :=
  if c_signed T
  then (z + 2 ^ (c_bits T - 1)) mod 2 ^ c_bits T - 2 ^ (c_bits T - 1)
  else z mod 2 ^ c_bits T.

(** Integer promotion: the narrow types become [int], which holds all
    their values. *)
Definition promote (T : c_type) : int_type :=
  match T with
  | Arith ty => ty
  | I8 | U8 | I16 | U16 => Int32
  end.

(** The usual arithmetic conversions on promoted types: the wider type
    wins; at equal width the unsigned one does. *)
Definition common (a b : int_type) : int_type :=
  if bits a <? bits b then b
  else if bits b <? bits a then a
  else if is_signed a then b else a.

(** An operand of an expression: its promoted type and its value. *)
Definition operand : Set := (int_type * Z)%type.

(** A binary operator: both operands are converted to the common type,
    at which the operation takes place. *)
Definition binary (op : int_type -> Z -> Z -> option Z) (x y : operand)
  : option operand :=
  let C := common (fst x) (fst y) in
  match op C (convert (Arith C) (snd x)) (convert (Arith C) (snd y)) with
  | Some r => Some (C, r)
  | None => None
  end.

(** The literal [1], an [int]. *)
Definition one : operand := (Int32, 1).

(** An argument of type [T] as an operand. *)
Definition arg (T : c_type) (z : Z) : operand := (promote T, z).

Local Open Scope cint_scope.

(** [T1 ceil_aligned(T1 value, T2 alignment)]:
    [return value + alignment - (((value + alignment - 1) % alignment) + 1);] *)
Definition ceil_aligned (T1 T2 : c_type) (value alignment : Z) : option Z :=
  let v := arg T1 value in
  let a := arg T2 alignment in
  s  <- binary add v a ;;
  s1 <- binary sub s one ;;
  r  <- binary rem s1 a ;;
  r1 <- binary add r one ;;
  e  <- binary sub s r1 ;;
  Some (convert T1 (snd e)).

(** [T1 ceil_divide(T1 dividend, T2 alignment)]:
    [return (dividend + alignment - 1) / alignment;] *)
Definition ceil_divide (T1 T2 : c_type) (dividend alignment : Z) : option Z :=
  let d := arg T1 dividend in
  let a := arg T2 alignment in
  s  <- binary add d a ;;
  s1 <- binary sub s one ;;
  e  <- binary div s1 a ;;
  Some (convert T1 (snd e)).

(** [T1 floor_aligned(T1 value, T2 alignment)]:
    [return value - (value % alignment);] *)
Definition floor_aligned (T1 T2 : c_type) (value alignment : Z) : option Z :=
  let v := arg T1 value in
  let a := arg T2 alignment in
  r <- binary rem v a ;;
  e <- binary sub v r ;;
  Some (convert T1 (snd e)).

(** [T1 ceil_modulo(T1 value, T2 alignment)]:
    [T1 x = (value + alignment - 1) % alignment;
     return value + alignment - ((x < 0 ? x + alignment : x) + 1);]
    The conditional has the common type of its two branches, to which the
    chosen one is converted. *)
Definition ceil_modulo (T1 T2 : c_type) (value alignment : Z) : option Z :=
  let v := arg T1 value in
  let a := arg T2 alignment in
  s  <- binary add v a ;;
  s1 <- binary sub s one ;;
  m  <- binary rem s1 a ;;
  let x := arg T1 (convert T1 (snd m)) in
  s' <- binary add v a ;;
  let C := common (common (fst x) (fst a)) (fst x) in
  c  <- (if snd x <? 0
         then xa <- binary add x a ;; Some (C, convert (Arith C) (snd xa))
         else Some (C, convert (Arith C) (snd x))) ;;
  c1 <- binary add c one ;;
  e  <- binary sub s' c1 ;;
  Some (convert T1 (snd e)).

(** [all_match_predicate] with a predicate whose result is an [int] (a
    [bool] result is the [int] 0 or 1): [res &= f( *begin)] is the bitwise
    and of [res], as the [int] 0 or 1, with the result, converted back
    to [bool]. *)
Definition all_match_predicate {A : Type} (range : list A) (f : A -> Z) : bool :=
  fold_left
    (fun (res : bool) (x : A) => negb (Z.land (Z.b2z res) (f x) =? 0))
    range true.

End Template.

(** * Properties *)

(** ** The logical clock *)

Module ReplTimestampFacts.
Import ReplTimestamp.

Lemma to_uint32_range (z : Z) : 0 <= to_uint32 z < uint32_modulus.
Proof. unfold to_uint32, uint32_modulus. apply Z.mod_pos_bound. reflexivity. Qed.

Lemma to_uint32_small (z : Z) : 0 <= z < uint32_modulus -> to_uint32 z = z.
Proof. intros Hz. unfold to_uint32. now apply Z.mod_small. Qed.

Lemma next_wf (x : repli_timestamp_t) : repli_timestamp_wf (next x).
Proof. unfold repli_timestamp_wf, next; simpl. apply to_uint32_range. Qed.

Lemma repli_max_cases (x y : repli_timestamp_t) :
  (time x < time y /\ repli_max x y = y) \/ (time y <= time x /\ repli_max x y = x).
Proof.
  unfold repli_max, op_lt.
  destruct (Z.ltb_spec (time x) (time y)); [left | right]; split; trivial.
Qed.

Lemma repli_max_time (x y : repli_timestamp_t) :
  time (repli_max x y) = Z.max (time x) (time y).
Proof. destruct (repli_max_cases x y) as [[Hlt ->] | [Hle ->]]; lia. Qed.

Lemma repli_max_wf (x y : repli_timestamp_t) :
  repli_timestamp_wf x -> repli_timestamp_wf y -> repli_timestamp_wf (repli_max x y).
Proof. intros Hx Hy. destruct (repli_max_cases x y) as [[_ ->] | [_ ->]]; assumption. Qed.

End ReplTimestampFacts.

Section Clock.
Import ReplTimestamp ReplTimestampFacts.

(** The header declares [static const repli_timestamp_t invalid] without
    its value, which is therefore left open. *)
Variable invalid : repli_timestamp_t.

(** C2: for all clock values [x], [y] other than [invalid],
    [repli_max(x, y) == repli_max(y, x)], and [repli_max(x, y) >= x] and
    [repli_max(x, y) >= y]. *)
Theorem repli_max_comm_dominates (x y : repli_timestamp_t) :
  x <> invalid -> y <> invalid ->
  op_eq (repli_max x y) (repli_max y x) = true
  /\ op_ge (repli_max x y) x = true
  /\ op_ge (repli_max x y) y = true.
Proof.
  intros _ _. unfold op_eq, op_ge.
  rewrite Z.eqb_eq, !Z.geb_le, !repli_max_time. lia.
Qed.

End Clock.

Section ClockOperators.
Import ReplTimestamp ReplTimestampFacts.

(** C4: each of [==], [!=], [<], [>], [<=], [>=] on [repli_timestamp_t]
    yields the result of the same numeric comparison of [x.time] and
    [y.time]. *)
Theorem operators_agree_with_time (x y : repli_timestamp_t) :
  (op_eq x y = true <-> time x = time y)
  /\ (op_ne x y = true <-> time x <> time y)
  /\ (op_lt x y = true <-> time x < time y)
  /\ (op_gt x y = true <-> time x > time y)
  /\ (op_le x y = true <-> time x <= time y)
  /\ (op_ge x y = true <-> time x >= time y).
Proof.
  unfold op_eq, op_ne, op_lt, op_gt, op_le, op_ge.
  rewrite negb_true_iff, Z.eqb_neq, Z.eqb_eq, Z.ltb_lt, Z.leb_le.
  rewrite Z.gtb_ltb, Z.geb_leb, Z.ltb_lt, Z.leb_le.
  repeat split; lia.
Qed.

(** C5: for every clock value [x] with [x.time < 2^32 - 1],
    [next(x).time == x.time + 1]. *)
Theorem next_below_limit (x : repli_timestamp_t) :
  repli_timestamp_wf x -> time x < 2 ^ 32 - 1 ->
  time (next x) = time x + 1.
Proof.
  unfold repli_timestamp_wf. intros [Hlo _] Hhi. simpl.
  apply to_uint32_small. unfold uint32_modulus. lia.
Qed.

(** C9: for every clock value [x], [next(x).time == (x.time + 1) mod 2^32],
    a [uint32_t] again; the successor of the greatest value, [2^32 - 1],
    has [time == 0]. *)
Theorem next_wraps (x : repli_timestamp_t) :
  time (next x) = (time x + 1) mod 2 ^ 32
  /\ repli_timestamp_wf (next x)
  /\ next {| time := 2 ^ 32 - 1 |} = {| time := 0 |}.
Proof.
  split; [reflexivity | split; [apply next_wf | reflexivity]].
Qed.

End ClockOperators.

Lemma repli_max_comm_dominates_witness :
  ReplTimestamp.op_eq (repli_max {| time := 5 |} {| time := 3 |})
                      (repli_max {| time := 3 |} {| time := 5 |}) = true
  /\ ReplTimestamp.op_ge (repli_max {| time := 5 |} {| time := 3 |}) {| time := 5 |} = true
  /\ ReplTimestamp.op_ge (repli_max {| time := 5 |} {| time := 3 |}) {| time := 3 |} = true.
Proof.
  apply (repli_max_comm_dominates {| time := 4294967295 |}); discriminate.
Defined.

Lemma next_below_limit_witness :
  time (ReplTimestamp.next {| time := 41 |}) = 41 + 1.
Proof.
  apply (next_below_limit {| time := 41 |}).
  - unfold repli_timestamp_wf, uint32_modulus; simpl; lia.
  - simpl; lia.
Defined.

(** ** Alignment *)

Module CIntFacts.
Import CInt.

Lemma min_value_nonpos (ty : int_type) : min_value ty <= 0.
Proof. destruct ty; cbv; congruence. Qed.

Lemma max_value_below_modulus (ty : int_type) : max_value ty < 2 ^ bits ty.
Proof. destruct ty; reflexivity. Qed.

(** Within the non-negative range of the type, arithmetic is exact. *)
Lemma arith_exact (ty : int_type) (z : Z) :
  0 <= z <= max_value ty -> arith ty z = Some z.
Proof.
  intros [Hlo Hhi]. unfold arith, representable.
  pose proof (min_value_nonpos ty) as Hmin.
  pose proof (max_value_below_modulus ty) as Hmod.
  destruct (is_signed ty).
  - replace (min_value ty <=? z) with true by (symmetry; apply Z.leb_le; lia).
    replace (z <=? max_value ty) with true by (symmetry; apply Z.leb_le; lia).
    reflexivity.
  - f_equal. apply Z.mod_small. lia.
Qed.

Lemma rem_nonneg (ty : int_type) (a b : Z) :
  0 <= a -> 0 < b -> rem ty a b = Some (a mod b).
Proof.
  intros Ha Hb. unfold rem.
  replace (b =? 0) with false by (symmetry; apply Z.eqb_neq; lia).
  replace (b =? -1) with false by (symmetry; apply Z.eqb_neq; lia).
  rewrite andb_false_r. f_equal. apply Z.rem_mod_nonneg; lia.
Qed.

End CIntFacts.

(** On non-negative operands whose sum fits the type, no operation of
    [ceil_aligned] wraps or is undefined, and the result is the dividend
    [value + alignment - 1] rounded down to a multiple of [alignment]. *)
Lemma ceil_aligned_exact (ty : CInt.int_type) (value alignment : Z) :
  0 <= value -> 0 < alignment -> value + alignment <= CInt.max_value ty ->
  ceil_aligned ty value alignment
  = Some (alignment * ((value + alignment - 1) / alignment)).
Proof.
  intros Hv Ha Hfit. unfold ceil_aligned, CInt.add, CInt.sub.
  pose proof (Z.mod_pos_bound (value + alignment - 1) alignment Ha) as Hr.
  pose proof (Z.div_mod (value + alignment - 1) alignment) as Hdm.
  rewrite CIntFacts.arith_exact by lia. simpl.
  rewrite CIntFacts.arith_exact by lia. simpl.
  rewrite CIntFacts.rem_nonneg by lia. simpl.
  rewrite CIntFacts.arith_exact by lia. simpl.
  rewrite CIntFacts.arith_exact by lia.
  f_equal. lia.
Qed.

(** C10: for non-negative [value] and positive [alignment] whose sum does
    not overflow the integer type, [ceil_aligned(value, alignment)] returns
    the smallest multiple of [alignment] that is at least [value], and so
    [value] itself when that is a multiple of [alignment]. *)
Theorem ceil_aligned_least_multiple (ty : CInt.int_type) (value alignment : Z) :
  0 <= value -> 0 < alignment -> value + alignment <= CInt.max_value ty ->
  exists r : Z,
    ceil_aligned ty value alignment = Some r
    /\ (alignment | r)
    /\ value <= r
    /\ (forall m : Z, (alignment | m) -> value <= m -> r <= m)
    /\ ((alignment | value) -> r = value).
Proof.
  intros Hv Ha Hfit.
  exists (alignment * ((value + alignment - 1) / alignment)).
  split; [now apply ceil_aligned_exact |].
  pose proof (Z.mod_pos_bound (value + alignment - 1) alignment Ha) as Hr.
  pose proof (Z.div_mod (value + alignment - 1) alignment) as Hdm.
  set (q := (value + alignment - 1) / alignment) in *.
  assert (Hleast : forall m, (alignment | m) -> value <= m -> alignment * q <= m).
  { intros m [k ->] Hm. rewrite (Z.mul_comm k).
    apply Z.mul_le_mono_nonneg_l; [lia |].
    assert (alignment * q < alignment * (k + 1)) by lia.
    assert (q < k + 1) by (apply Z.mul_lt_mono_pos_l with alignment; lia).
    lia. }
  repeat split.
  - exists q. apply Z.mul_comm.
  - lia.
  - exact Hleast.
  - intros Hdiv. specialize (Hleast value Hdiv). lia.
Qed.

Lemma ceil_aligned_least_multiple_witness :
  exists r : Z,
    ceil_aligned CInt.UInt64 4097 4096 = Some r
    /\ (4096 | r)
    /\ 4097 <= r
    /\ (forall m : Z, (4096 | m) -> 4097 <= m -> r <= m)
    /\ ((4096 | 4097) -> r = 4097).
Proof.
  apply (ceil_aligned_least_multiple CInt.UInt64 4097 4096).
  - lia.
  - lia.
  - vm_compute; discriminate.
Defined.

(** ** The cancellation signal *)

(** C8: [interrupted_exc_t] carries no payload, so any two instances are
    the same value, and [what()] returns the fixed description
    "interrupted" for every instance. *)
Theorem interrupted_what_fixed (e e' : interrupted_exc_t) :
  e = e' /\ what e = "interrupted"%string /\ what e' = what e.
Proof. destruct e, e'. repeat split. Qed.

(** ** Thread affinity *)

(** The pool registry obeys the registry's law. *)
#[export] Instance pool_ThreadRegistryLaws : ThreadRegistryLaws pool_registry.
Proof.
  constructor. intros t r r'. simpl. unfold pool_request_switch.
  destruct (shutting_down r); [discriminate |].
  destruct ((0 <=? t) && (t <? pool_size r)); [| discriminate].
  intros [= <-]. reflexivity.
Qed.

Section AffinityFacts.

Context {R : Type} `{ThreadRegistryLaws R}.

Lemma on_thread_ctor_origin (thread : ThreadId) (r r1 : R) (g : on_thread_t) :
  on_thread_ctor thread r = Ok (g, r1) ->
  origin g = current_thread r /\ target g = thread.
Proof.
  unfold on_thread_ctor. simpl.
  destruct (origin _ =? thread).
  - intros [= <- _]. split; reflexivity.
  - destruct (request_switch thread r); [| discriminate].
    intros [= <- _]. split; reflexivity.
Qed.

(** After a successful construction the task runs on the target. *)
Lemma on_thread_ctor_lands (thread : ThreadId) (r r1 : R) (g : on_thread_t) :
  on_thread_ctor thread r = Ok (g, r1) -> current_thread r1 = thread.
Proof.
  unfold on_thread_ctor. simpl. unfold origin, home_thread. simpl.
  destruct (Z.eqb_spec (current_thread r) thread) as [Heq | Hne].
  - intros [= _ <-]. exact Heq.
  - destruct (request_switch thread r) as [r' |] eqn:Hsw; [| discriminate].
    intros [= _ <-]. now apply request_switch_lands with r.
Qed.

(** When the target is the current thread the constructor returns
    without asking the registry. *)
Lemma on_thread_ctor_fast (r : R) :
  on_thread_ctor (current_thread r) r
  = Ok ({| on_thread_base := home_thread_mixin_default r;
           target := current_thread r |}, r).
Proof.
  unfold on_thread_ctor, origin, home_thread. simpl.
  now rewrite Z.eqb_refl.
Qed.

(** C1: constructing an [on_thread_t] for any target thread and then
    destroying it leaves the current thread as it was.  On the fast path
    (the target is the current thread) both steps return without asking
    the registry and the registry is unchanged; on the migration path they
    return whenever the registry serves the two requests, first on the
    target, then back on the thread the task came from.  No run of the two
    steps ends on another thread. *)
Theorem on_thread_round_trip (thread : ThreadId) (r : R) :
  (thread = current_thread r ->
   exists g : on_thread_t,
     on_thread_ctor thread r = Ok (g, r) /\ on_thread_dtor g r = Ok r)
  /\ (thread <> current_thread r ->
      forall r1 r2 : R,
        request_switch thread r = Ok r1 ->
        request_switch (current_thread r) r1 = Ok r2 ->
        exists g : on_thread_t,
          on_thread_ctor thread r = Ok (g, r1)
          /\ current_thread r1 = thread
          /\ on_thread_dtor g r1 = Ok r2
          /\ current_thread r2 = current_thread r)
  /\ (forall (g : on_thread_t) (r1 r2 : R),
        on_thread_ctor thread r = Ok (g, r1) ->
        on_thread_dtor g r1 = Ok r2 ->
        current_thread r2 = current_thread r).
Proof.
  split; [| split].
  - intros ->. eexists. split; [apply on_thread_ctor_fast |].
    unfold on_thread_dtor, origin, home_thread. simpl.
    now rewrite Z.eqb_refl.
  - intros Hne r1 r2 Hgo Hback.
    exists {| on_thread_base := home_thread_mixin_default r; target := thread |}.
    assert (Hfar : (current_thread r =? thread) = false)
      by (apply Z.eqb_neq; congruence).
    unfold on_thread_ctor, on_thread_dtor, origin, home_thread. simpl.
    rewrite Hfar, Hgo. repeat split.
    + now apply request_switch_lands with r.
    + exact Hback.
    + now apply request_switch_lands with r1.
  - intros g r1 r2 Hctor Hdtor.
    destruct (on_thread_ctor_origin _ _ _ _ Hctor) as [Ho Ht].
    pose proof (on_thread_ctor_lands _ _ _ _ Hctor) as Hland.
    unfold on_thread_dtor in Hdtor. rewrite Ho, Ht in Hdtor.
    destruct (Z.eqb_spec (current_thread r) thread) as [Heq | Hne].
    + injection Hdtor as <-. congruence.
    + now apply request_switch_lands with r1.
Qed.

(** C6: in the diagnostics build [assert_thread()] returns at once with the
    registry untouched when the current thread is [home_thread()] and
    terminates the process when it differs; in the [NDEBUG] build it
    returns with the registry untouched for every object and every current
    thread. *)
Theorem assert_thread_by_build (m : home_thread_mixin_t) (r : R) :
  (current_thread r <> home_thread m -> assert_thread Diagnostics m r = Terminated)
  /\ (current_thread r = home_thread m -> assert_thread Diagnostics m r = Returns r)
  /\ assert_thread Performance m r = Returns r.
Proof.
  simpl. unfold assert_thread_debug, assert_thread_ndebug.
  destruct (Z.eqb_spec (current_thread r) (home_thread m)); repeat split;
    congruence.
Qed.

End AffinityFacts.

(** ** Runs on the pool registry *)

Lemma on_thread_round_trip_witness :
  (exists g : on_thread_t,
     on_thread_ctor 1 (four_workers_on 1) = Ok (g, four_workers_on 1)
     /\ on_thread_dtor g (four_workers_on 1) = Ok (four_workers_on 1))
  /\ (exists g : on_thread_t,
        on_thread_ctor 2 (four_workers_on 1) = Ok (g, four_workers_on 2)
        /\ current_thread (four_workers_on 2) = 2
        /\ on_thread_dtor g (four_workers_on 2) = Ok (four_workers_on 1)
        /\ current_thread (four_workers_on 1) = 1).
Proof.
  split.
  - apply (proj1 (on_thread_round_trip 1 (four_workers_on 1))). reflexivity.
  - refine (proj1 (proj2 (on_thread_round_trip 2 (four_workers_on 1)))
                  _ (four_workers_on 2) (four_workers_on 1) _ _).
    + simpl; lia.
    + reflexivity.
    + reflexivity.
Defined.

Lemma assert_thread_by_build_witness :
  assert_thread Diagnostics (home_thread_mixin_default (four_workers_on 2))
                (four_workers_on 3) = Terminated
  /\ assert_thread Diagnostics (home_thread_mixin_default (four_workers_on 2))
                   (four_workers_on 2) = Returns (four_workers_on 2)
  /\ assert_thread Performance (home_thread_mixin_default (four_workers_on 2))
                   (four_workers_on 3) = Returns (four_workers_on 3).
Proof.
  split; [| split].
  - apply (proj1 (assert_thread_by_build
                    (home_thread_mixin_default (four_workers_on 2))
                    (four_workers_on 3))).
    simpl; lia.
  - apply (proj1 (proj2 (assert_thread_by_build
                           (home_thread_mixin_default (four_workers_on 2))
                           (four_workers_on 2)))).
    reflexivity.
  - apply (proj2 (proj2 (assert_thread_by_build
                           (home_thread_mixin_default (four_workers_on 2))
                           (four_workers_on 3)))).
Defined.

(** A guard for a thread outside the pool, or on a pool that shuts down,
    is never constructed. *)
Example on_thread_unavailable :
  on_thread_ctor 9 (four_workers_on 1) = RuntimeUnavailable
  /\ on_thread_ctor INVALID_THREAD (four_workers_on 1) = RuntimeUnavailable
  /\ on_thread_ctor 2 {| pool_size := 4; running_on := 1; shutting_down := true |}
     = RuntimeUnavailable.
Proof. repeat split. Qed.

Example repli_max_5_3 :
  repli_max {| time := 5 |} {| time := 3 |} = {| time := 5 |}
  /\ repli_max {| time := 3 |} {| time := 5 |} = {| time := 5 |}
  /\ repli_max {| time := 0 |} {| time := 7 |} = {| time := 7 |}.
Proof. repeat split. Qed.

Example ceil_aligned_runs :
  ceil_aligned CInt.Int32 0 8 = Some 0
  /\ ceil_aligned CInt.Int32 1 8 = Some 8
  /\ ceil_aligned CInt.Int32 8 8 = Some 8
  /\ ceil_aligned CInt.UInt64 4097 4096 = Some 8192
  /\ ceil_aligned CInt.Int32 2147483647 1 = None
  /\ ceil_aligned CInt.UInt32 4294967295 4 = Some 0.
Proof. repeat split. Qed.

(** ** More on alignment *)

Module CIntRange.
Import CInt.

Lemma max_value_nonneg (ty : int_type) : 0 <= max_value ty.
Proof. destruct ty; cbv; congruence. Qed.

Lemma arith_in_range (ty : int_type) (z : Z) :
  in_range ty z -> arith ty z = Some z.
Proof.
  intros [Hlo Hhi]. unfold arith, representable.
  pose proof (CIntFacts.max_value_below_modulus ty) as Hmod.
  destruct (is_signed ty) eqn:Hs.
  - replace (min_value ty <=? z) with true by (symmetry; apply Z.leb_le; lia).
    replace (z <=? max_value ty) with true by (symmetry; apply Z.leb_le; lia).
    reflexivity.
  - unfold min_value in Hlo. rewrite Hs in Hlo.
    f_equal. apply Z.mod_small. lia.
Qed.

Lemma rem_pos_divisor (ty : int_type) (a b : Z) :
  0 < b -> rem ty a b = Some (Z.rem a b).
Proof.
  intros Hb. unfold rem.
  replace (b =? 0) with false by (symmetry; apply Z.eqb_neq; lia).
  replace (b =? -1) with false by (symmetry; apply Z.eqb_neq; lia).
  now rewrite andb_false_r.
Qed.

Lemma div_nonneg (ty : int_type) (a b : Z) :
  0 <= a -> 0 < b -> div ty a b = Some (a / b).
Proof.
  intros Ha Hb. unfold div.
  replace (b =? 0) with false by (symmetry; apply Z.eqb_neq; lia).
  replace (b =? -1) with false by (symmetry; apply Z.eqb_neq; lia).
  rewrite andb_false_r. f_equal. apply Z.quot_div_nonneg; lia.
Qed.

(** The adjustment [x < 0 ? x + b : x] turns the truncated remainder into
    the remainder of the floored division. *)
Lemma rem_adjusted (a b : Z) :
  0 < b ->
  (if Z.rem a b <? 0 then Z.rem a b + b else Z.rem a b) = a mod b.
Proof.
  intros Hb.
  pose proof (Z.quot_rem' a b) as Hqr.
  destruct (Z.ltb_spec (Z.rem a b) 0) as [Hneg | Hpos].
  - assert (a < 0).
    { destruct (Z.lt_ge_cases a 0); trivial.
      pose proof (Z.rem_bound_pos a b); lia. }
    pose proof (Z.rem_bound_pos_neg a b) as Hbnd.
    apply Z.mod_unique_pos with (q := Z.quot a b - 1); lia.
  - assert (Z.rem a b < b).
    { destruct (Z.lt_ge_cases a 0).
      - pose proof (Z.rem_bound_pos_neg a b); lia.
      - pose proof (Z.rem_bound_pos a b); lia. }
    apply Z.mod_unique_pos with (q := Z.quot a b); lia.
Qed.

(** Rounding [a] down to a multiple of [b]: the facts the alignment
    templates rest on. *)
Lemma round_down_least_above (v b : Z) :
  0 < b ->
  let r := b * ((v + b - 1) / b) in
  (b | r) /\ v <= r < v + b
  /\ (forall m : Z, (b | m) -> v <= m -> r <= m).
Proof.
  intros Hb r. subst r.
  pose proof (Z.mod_pos_bound (v + b - 1) b Hb) as Hr.
  pose proof (Z.div_mod (v + b - 1) b) as Hdm.
  set (q := (v + b - 1) / b) in *.
  split; [exists q; apply Z.mul_comm |].
  split; [lia |].
  intros m [k ->] Hm. rewrite (Z.mul_comm k).
  apply Z.mul_le_mono_nonneg_l; [lia |].
  assert (b * q < b * (k + 1)) by lia.
  assert (q < k + 1) by (apply Z.mul_lt_mono_pos_l with b; lia).
  lia.
Qed.

Lemma round_down_greatest_below (v b : Z) :
  0 < b ->
  let r := b * (v / b) in
  (b | r) /\ v - b < r <= v
  /\ (forall m : Z, (b | m) -> m <= v -> m <= r).
Proof.
  intros Hb r. subst r.
  pose proof (Z.mod_pos_bound v b Hb) as Hr.
  pose proof (Z.div_mod v b) as Hdm.
  set (q := v / b) in *.
  split; [exists q; apply Z.mul_comm |].
  split; [lia |].
  intros m [k ->] Hm. rewrite (Z.mul_comm k).
  apply Z.mul_le_mono_nonneg_l; [lia |].
  assert (b * k < b * (q + 1)) by lia.
  assert (k < q + 1) by (apply Z.mul_lt_mono_pos_l with b; lia).
  lia.
Qed.

End CIntRange.

Section AlignedExact.
Import CInt CIntFacts CIntRange.

Ltac exact_arith := rewrite arith_in_range by (unfold in_range; lia); simpl.

Lemma ceil_divide_exact (ty : int_type) (dividend alignment : Z) :
  0 <= dividend -> 0 < alignment -> dividend + alignment <= max_value ty ->
  ceil_divide ty dividend alignment = Some ((dividend + alignment - 1) / alignment).
Proof.
  intros Hv Ha Hfit.
  pose proof (min_value_nonpos ty) as Hmin.
  unfold ceil_divide, add, sub.
  exact_arith. exact_arith. apply div_nonneg; lia.
Qed.

Lemma floor_aligned_exact (ty : int_type) (value alignment : Z) :
  0 <= value <= max_value ty -> 0 < alignment ->
  floor_aligned ty value alignment = Some (alignment * (value / alignment)).
Proof.
  intros [Hv Hfit] Ha.
  pose proof (min_value_nonpos ty) as Hmin.
  pose proof (Z.mod_pos_bound value alignment Ha) as Hr.
  pose proof (Z.div_mod value alignment) as Hdm.
  pose proof (Z.mod_le value alignment Hv Ha) as Hle.
  unfold floor_aligned, sub.
  rewrite rem_pos_divisor by assumption. simpl.
  rewrite Z.rem_mod_nonneg by lia.
  exact_arith. f_equal. lia.
Qed.

Lemma ceil_modulo_exact (ty : int_type) (value alignment : Z) :
  in_range ty value -> 0 < alignment <= max_value ty ->
  value + alignment <= max_value ty ->
  ceil_modulo ty value alignment
  = Some (alignment * ((value + alignment - 1) / alignment)).
Proof.
  intros [Hlo Hhi] [Ha Hamax] Hfit.
  pose proof (min_value_nonpos ty) as Hmin.
  pose proof (Z.mod_pos_bound (value + alignment - 1) alignment Ha) as Hr.
  pose proof (Z.div_mod (value + alignment - 1) alignment) as Hdm.
  pose proof (rem_adjusted (value + alignment - 1) alignment Ha) as Hadj.
  unfold ceil_modulo, add, sub.
  rewrite (arith_in_range ty (value + alignment)) by (unfold in_range; lia).
  simpl.
  rewrite (arith_in_range ty (value + alignment - 1)) by (unfold in_range; lia).
  simpl.
  rewrite rem_pos_divisor by assumption. simpl.
  set (x := Z.rem (value + alignment - 1) alignment) in *.
  assert (Hx' : (if x <? 0 then arith ty (x + alignment) else Some x)
                = Some ((value + alignment - 1) mod alignment)).
  { destruct (Z.ltb_spec x 0).
    - rewrite arith_in_range by (unfold in_range; lia). now f_equal.
    - now f_equal. }
  rewrite Hx'. simpl.
  exact_arith. exact_arith. f_equal. lia.
Qed.

End AlignedExact.

Section AlignedFacts.
Import CInt CIntFacts CIntRange.

(** [ceil_divide]: for a non-negative dividend and a positive alignment
    whose sum fits the type, the result is the quotient rounded up: the
    least [q] with [dividend <= alignment * q]. *)
Theorem ceil_divide_rounds_up (ty : int_type) (dividend alignment : Z) :
  0 <= dividend -> 0 < alignment -> dividend + alignment <= max_value ty ->
  exists q : Z,
    ceil_divide ty dividend alignment = Some q
    /\ dividend <= alignment * q
    /\ (forall k : Z, dividend <= alignment * k -> q <= k).
Proof.
  intros Hv Ha Hfit.
  exists ((dividend + alignment - 1) / alignment).
  destruct (round_down_least_above dividend alignment Ha) as (_ & Hge & Hleast).
  split; [now apply ceil_divide_exact | split].
  - lia.
  - intros k Hk.
    specialize (Hleast (alignment * k)).
    assert (Hle : alignment * ((dividend + alignment - 1) / alignment)
                  <= alignment * k).
    { apply Hleast; [exists k; apply Z.mul_comm | exact Hk]. }
    apply Z.mul_le_mono_pos_l in Hle; assumption.
Qed.

(** [floor_aligned]: for a non-negative value and a positive alignment the
    result is the greatest multiple of the alignment that is at most the
    value, less than one alignment below it. *)
Theorem floor_aligned_greatest_multiple (ty : int_type) (value alignment : Z) :
  0 <= value <= max_value ty -> 0 < alignment ->
  exists r : Z,
    floor_aligned ty value alignment = Some r
    /\ (alignment | r)
    /\ value - alignment < r <= value
    /\ (forall m : Z, (alignment | m) -> m <= value -> m <= r).
Proof.
  intros Hv Ha.
  exists (alignment * (value / alignment)).
  split; [now apply floor_aligned_exact | now apply round_down_greatest_below].
Qed.

(** [ceil_aligned] is [alignment] times [ceil_divide]. *)
Theorem ceil_aligned_is_ceil_divide_times (ty : int_type) (value alignment : Z) :
  0 <= value -> 0 < alignment -> value + alignment <= max_value ty ->
  exists q : Z,
    ceil_divide ty value alignment = Some q
    /\ ceil_aligned ty value alignment = Some (alignment * q).
Proof.
  intros Hv Ha Hfit.
  exists ((value + alignment - 1) / alignment).
  split; [now apply ceil_divide_exact | now apply ceil_aligned_exact].
Qed.

(** [ceil_aligned(value, alignment)] is
    [floor_aligned(value + alignment - 1, alignment)], and both return. *)
Theorem ceil_aligned_is_floor_aligned_shifted (ty : int_type) (value alignment : Z) :
  0 <= value -> 0 < alignment -> value + alignment <= max_value ty ->
  ceil_aligned ty value alignment
  = floor_aligned ty (value + alignment - 1) alignment
  /\ ceil_aligned ty value alignment <> None.
Proof.
  intros Hv Ha Hfit.
  rewrite ceil_aligned_exact by assumption.
  rewrite floor_aligned_exact by lia.
  split; [reflexivity | discriminate].
Qed.

(** Between the two roundings: [floor_aligned <= value <= ceil_aligned], and
    the two differ by nothing when the value is a multiple of the alignment
    and by one alignment otherwise. *)
Theorem floor_value_ceil (ty : int_type) (value alignment : Z) :
  0 <= value -> 0 < alignment -> value + alignment <= max_value ty ->
  exists lo hi : Z,
    floor_aligned ty value alignment = Some lo
    /\ ceil_aligned ty value alignment = Some hi
    /\ lo <= value <= hi
    /\ ((alignment | value) -> lo = value /\ hi = value)
    /\ (~ (alignment | value) -> hi = lo + alignment).
Proof.
  intros Hv Ha Hfit.
  exists (alignment * (value / alignment)),
         (alignment * ((value + alignment - 1) / alignment)).
  destruct (round_down_greatest_below value alignment Ha)
    as (Hlodiv & Hlobnd & Hlomax).
  destruct (round_down_least_above value alignment Ha)
    as (Hhidiv & Hhibnd & Hhimin).
  cbv zeta in Hlodiv, Hlobnd, Hlomax, Hhidiv, Hhibnd, Hhimin.
  set (lo := alignment * (value / alignment)) in *.
  set (hi := alignment * ((value + alignment - 1) / alignment)) in *.
  split; [apply floor_aligned_exact; lia |].
  split; [now apply ceil_aligned_exact |].
  split; [lia |].
  split.
  - intros Hdiv. split.
    + specialize (Hlomax value Hdiv). lia.
    + specialize (Hhimin value Hdiv). lia.
  - intros Hndiv.
    destruct Hlodiv as [j Hj]. destruct Hhidiv as [k Hk].
    assert (lo <> value) by (intros Heq; apply Hndiv; exists j; lia).
    assert (hi <> value) by (intros Heq; apply Hndiv; exists k; lia).
    assert (k = j + 1) by nia.
    nia.
Qed.

(** On non-negative values [ceil_modulo] and [ceil_aligned] agree, and
    both return. *)
Theorem ceil_modulo_agrees_ceil_aligned (ty : int_type) (value alignment : Z) :
  0 <= value -> 0 < alignment -> value + alignment <= max_value ty ->
  ceil_modulo ty value alignment = ceil_aligned ty value alignment
  /\ ceil_aligned ty value alignment <> None.
Proof.
  intros Hv Ha Hfit.
  pose proof (min_value_nonpos ty) as Hmin.
  rewrite ceil_aligned_exact by assumption.
  rewrite ceil_modulo_exact by (unfold in_range; lia).
  split; [reflexivity | discriminate].
Qed.

End AlignedFacts.

Section AlignedEdges.
Import CInt CIntFacts CIntRange.

(** [divides(x, y)] is undefined exactly for [x == 0] and for
    [INT64_MIN % -1]; wherever it returns, it tells whether [x] divides
    [y]. *)
Theorem divides_spec (x y : Z) :
  (divides x y = None <-> x = 0 \/ (y = min_value Int64 /\ x = -1))
  /\ (forall b : bool, divides x y = Some b -> (b = true <-> (x | y))).
Proof.
  unfold divides, rem. simpl is_signed. rewrite andb_true_l.
  destruct (Z.eqb_spec x 0) as [Hx0 | Hx0]; simpl.
  { split; [split; auto | discriminate]. }
  destruct (Z.eqb_spec y (min_value Int64)) as [Hy | Hy];
    destruct (Z.eqb_spec x (-1)) as [Hx1 | Hx1]; simpl.
  1: { split; [split; auto | discriminate]. }
  all: split;
    [ split; [discriminate | intros [? | [? ?]]; congruence]
    | intros b [= <-]; rewrite Z.eqb_eq; now apply Z.rem_divide ].
Qed.

End AlignedEdges.

(** ** [all_match_predicate] *)

Section AllMatch.

Context {A : Type} (f : A -> bool).

Lemma and_fold_from (range : list A) (res : bool) :
  fold_left (fun (res : bool) (x : A) => res && f x) range res
  = res && forallb f range.
Proof.
  revert res. induction range as [| x range IH]; intros res; simpl.
  - now rewrite andb_true_r.
  - rewrite IH. now rewrite andb_assoc.
Qed.

(** The verdict on a range made of two consecutive ranges is the
    conjunction of the verdicts on the two. *)
Theorem all_match_predicate_app (range1 range2 : list A) :
  all_match_predicate (range1 ++ range2) f
  = all_match_predicate range1 f && all_match_predicate range2 f.
Proof.
  unfold all_match_predicate.
  rewrite fold_left_app, !and_fold_from, !andb_true_l.
  reflexivity.
Qed.

End AllMatch.

(** ** More on the logical clock *)

Section ClockOrder.
Import ReplTimestamp ReplTimestampFacts.

(** The six operators are consistent with one another: [!=] negates [==],
    [>] and [>=] are [<] and [<=] with the operands exchanged, [<=] negates
    [>], and [<=] is [<] or [==]. *)
Theorem operators_consistent (x y : repli_timestamp_t) :
  op_ne x y = negb (op_eq x y)
  /\ op_gt x y = op_lt y x
  /\ op_ge x y = op_le y x
  /\ op_le x y = negb (op_gt x y)
  /\ op_le x y = op_lt x y || op_eq x y.
Proof.
  unfold op_eq, op_ne, op_lt, op_gt, op_le, op_ge.
  rewrite Z.gtb_ltb, Z.geb_leb.
  repeat split.
  - apply Z.leb_antisym.
  - destruct (Z.leb_spec (time x) (time y)), (Z.ltb_spec (time x) (time y)),
      (Z.eqb_spec (time x) (time y)); simpl; trivial; lia.
Qed.

(** [<=] is a total order on clock values whose equality is [==], and [==]
    holds only between equal values. *)
Theorem operators_total_order (x y z : repli_timestamp_t) :
  op_le x x = true
  /\ (op_le x y = true -> op_le y x = true -> op_eq x y = true)
  /\ (op_le x y = true -> op_le y z = true -> op_le x z = true)
  /\ (op_le x y = true \/ op_le y x = true)
  /\ (op_eq x y = true <-> x = y).
Proof.
  unfold op_eq, op_le.
  rewrite !Z.leb_le, Z.eqb_eq.
  repeat split; try lia.
  - destruct x, y; simpl; intros ->; reflexivity.
  - intros ->; reflexivity.
Qed.

(** [next(x)] is above [x] exactly when [x] is below the greatest value;
    at the greatest value it is below [x]. *)
Theorem next_above_iff_below_limit (x : repli_timestamp_t) :
  repli_timestamp_wf x ->
  (op_gt (next x) x = true <-> time x < 2 ^ 32 - 1)
  /\ (op_lt (next x) x = true <-> time x = 2 ^ 32 - 1)
  /\ op_ne (next x) x = true.
Proof.
  unfold repli_timestamp_wf, uint32_modulus. intros Hx.
  unfold op_gt, op_lt, op_ne.
  rewrite Z.gtb_ltb, !Z.ltb_lt, negb_true_iff, Z.eqb_neq.
  destruct (Z.eq_dec (time x) (2 ^ 32 - 1)) as [Hmax | Hlt].
  - replace (next x) with {| time := 0 |}
      by (unfold next; rewrite Hmax; reflexivity).
    simpl. lia.
  - simpl. rewrite to_uint32_small by (unfold uint32_modulus; lia). lia.
Qed.

(** [next] never maps two different clock values to the same value. *)
Theorem next_injective (x y : repli_timestamp_t) :
  repli_timestamp_wf x -> repli_timestamp_wf y ->
  op_eq (next x) (next y) = true -> op_eq x y = true.
Proof.
  unfold repli_timestamp_wf, uint32_modulus, op_eq. intros Hx Hy.
  rewrite !Z.eqb_eq. simpl. unfold to_uint32, uint32_modulus. intros Heq.
  destruct (Z.eq_dec (time x) (2 ^ 32 - 1)) as [Hxm | Hxl];
    destruct (Z.eq_dec (time y) (2 ^ 32 - 1)) as [Hym | Hyl].
  - lia.
  - rewrite Hxm in Heq. rewrite (Z.mod_small (time y + 1)) in Heq by lia.
    change ((2 ^ 32 - 1 + 1) mod 2 ^ 32) with 0 in Heq. lia.
  - rewrite Hym in Heq. rewrite (Z.mod_small (time x + 1)) in Heq by lia.
    change ((2 ^ 32 - 1 + 1) mod 2 ^ 32) with 0 in Heq. lia.
  - rewrite !Z.mod_small in Heq by lia. lia.
Qed.

(** [n] applications of [next] add [n] modulo [2^32]; after [2^32] of them
    the clock is back at its value. *)
Theorem next_iterated (x : repli_timestamp_t) (n : N) :
  repli_timestamp_wf x ->
  time (N.iter n next x) = (time x + Z.of_N n) mod 2 ^ 32
  /\ N.iter (2 ^ 32) next x = x.
Proof.
  intros Hx.
  assert (Hiter : forall k : N,
             time (N.iter k next x) = (time x + Z.of_N k) mod 2 ^ 32).
  { intros k. induction k as [| k IH] using N.peano_ind.
    - simpl. rewrite Z.add_0_r. symmetry. now apply Z.mod_small.
    - rewrite N.iter_succ. simpl. rewrite IH.
      unfold to_uint32, uint32_modulus.
      rewrite N2Z.inj_succ, Z.add_mod_idemp_l by discriminate.
      f_equal. lia. }
  split; [apply Hiter |].
  specialize (Hiter (2 ^ 32)%N).
  change (Z.of_N (2 ^ 32)) with (1 * 2 ^ 32) in Hiter.
  rewrite Z.mod_add in Hiter by discriminate.
  rewrite Z.mod_small in Hiter by exact Hx.
  destruct x as [tx], (N.iter (2 ^ 32) next {| time := tx |}) as [ty].
  simpl in Hiter. now subst.
Qed.

End ClockOrder.

(** ** Runs of the alignment templates and of the clock *)

Lemma ceil_divide_rounds_up_witness :
  exists q : Z,
    ceil_divide CInt.Int32 10 4 = Some q
    /\ 10 <= 4 * q
    /\ (forall k : Z, 10 <= 4 * k -> q <= k).
Proof.
  apply (ceil_divide_rounds_up CInt.Int32 10 4); [lia | lia | cbn; lia].
Defined.

Lemma floor_aligned_greatest_multiple_witness :
  exists r : Z,
    floor_aligned CInt.UInt64 4100 4096 = Some r
    /\ (4096 | r)
    /\ 4100 - 4096 < r <= 4100
    /\ (forall m : Z, (4096 | m) -> m <= 4100 -> m <= r).
Proof.
  apply (floor_aligned_greatest_multiple CInt.UInt64 4100 4096);
    [cbn; lia | lia].
Defined.

Lemma ceil_aligned_is_ceil_divide_times_witness :
  exists q : Z,
    ceil_divide CInt.Int32 10 4 = Some q
    /\ ceil_aligned CInt.Int32 10 4 = Some (4 * q).
Proof.
  apply (ceil_aligned_is_ceil_divide_times CInt.Int32 10 4);
    [lia | lia | cbn; lia].
Defined.

Lemma ceil_aligned_is_floor_aligned_shifted_witness :
  ceil_aligned CInt.UInt32 10 4 = floor_aligned CInt.UInt32 (10 + 4 - 1) 4
  /\ ceil_aligned CInt.UInt32 10 4 <> None.
Proof.
  apply (ceil_aligned_is_floor_aligned_shifted CInt.UInt32 10 4);
    [lia | lia | cbn; lia].
Defined.

Lemma floor_value_ceil_witness :
  exists lo hi : Z,
    floor_aligned CInt.Int64 10 4 = Some lo
    /\ ceil_aligned CInt.Int64 10 4 = Some hi
    /\ lo <= 10 <= hi
    /\ ((4 | 10) -> lo = 10 /\ hi = 10)
    /\ (~ (4 | 10) -> hi = lo + 4).
Proof.
  apply (floor_value_ceil CInt.Int64 10 4); [lia | lia | cbn; lia].
Defined.

Lemma ceil_modulo_agrees_ceil_aligned_witness :
  ceil_modulo CInt.Int32 10 4 = ceil_aligned CInt.Int32 10 4
  /\ ceil_aligned CInt.Int32 10 4 <> None.
Proof.
  apply (ceil_modulo_agrees_ceil_aligned CInt.Int32 10 4);
    [lia | lia | cbn; lia].
Defined.

Lemma next_above_iff_below_limit_witness :
  (ReplTimestamp.op_gt (ReplTimestamp.next {| time := 4294967295 |})
                       {| time := 4294967295 |} = true
   <-> 4294967295 < 2 ^ 32 - 1)
  /\ (ReplTimestamp.op_lt (ReplTimestamp.next {| time := 4294967295 |})
                          {| time := 4294967295 |} = true
      <-> 4294967295 = 2 ^ 32 - 1)
  /\ ReplTimestamp.op_ne (ReplTimestamp.next {| time := 4294967295 |})
                         {| time := 4294967295 |} = true.
Proof.
  apply (next_above_iff_below_limit {| time := 4294967295 |}).
  unfold repli_timestamp_wf, uint32_modulus; simpl; lia.
Defined.

Lemma next_injective_witness :
  ReplTimestamp.op_eq {| time := 0 |} {| time := 0 |} = true.
Proof.
  apply (next_injective {| time := 0 |} {| time := 0 |}).
  - unfold repli_timestamp_wf, uint32_modulus; simpl; lia.
  - unfold repli_timestamp_wf, uint32_modulus; simpl; lia.
  - reflexivity.
Defined.

Lemma next_iterated_witness :
  time (N.iter 3 ReplTimestamp.next {| time := 4294967294 |})
  = (4294967294 + Z.of_N 3) mod 2 ^ 32
  /\ N.iter (2 ^ 32) ReplTimestamp.next {| time := 4294967294 |}
     = {| time := 4294967294 |}.
Proof.
  apply (next_iterated {| time := 4294967294 |} 3).
  unfold repli_timestamp_wf, uint32_modulus; simpl; lia.
Defined.

Example more_runs :
  ceil_divide CInt.Int32 0 4 = Some 0
  /\ ceil_divide CInt.Int32 9 4 = Some 3
  /\ floor_aligned CInt.Int32 (-5) 4 = Some (-4)
  /\ ceil_aligned CInt.Int32 (-5) 4 = Some 0
  /\ ceil_modulo CInt.Int32 (-5) 4 = Some (-4)
  /\ ceil_modulo CInt.Int32 (-8) 4 = Some (-8)
  /\ floor_aligned CInt.UInt32 7 0 = None
  /\ divides 3 12 = Some true
  /\ divides 5 12 = Some false
  /\ divides 0 12 = None
  /\ all_match_predicate [2; 4; 5] Z.even = false
  /\ all_match_predicate [] Z.even = true.
Proof. repeat split. Qed.

(** ** The templates at independent argument types *)

Module TemplateFacts.
Import CInt CIntFacts CIntRange Template.

Lemma c_in_range_arith (ty : int_type) (z : Z) :
  c_in_range (Arith ty) z <-> in_range ty z.
Proof. reflexivity. Qed.

(** A value of the type is left as it is by the conversion to the type. *)
Lemma convert_in_range (T : c_type) (z : Z) :
  c_in_range T z -> convert T z = z.
Proof.
  unfold c_in_range, c_min, c_max, convert.
  destruct (c_signed T); intros Hz.
  - assert (Hpow : 2 ^ c_bits T = 2 * 2 ^ (c_bits T - 1)).
    { rewrite <- Z.pow_succ_r; [f_equal; lia |].
      destruct T as [| | | | []]; cbn; lia. }
    rewrite Z.mod_small; lia.
  - apply Z.mod_small. lia.
Qed.

Lemma convert_range (T : c_type) (z : Z) : c_in_range T (convert T z).
Proof.
  unfold c_in_range, c_min, c_max, convert.
  assert (Hpos : 0 < 2 ^ c_bits T) by (destruct T as [| | | | []]; reflexivity).
  destruct (c_signed T).
  - assert (Hpow : 2 ^ c_bits T = 2 * 2 ^ (c_bits T - 1)).
    { rewrite <- Z.pow_succ_r; [f_equal; lia |].
      destruct T as [| | | | []]; cbn; lia. }
    pose proof (Z.mod_pos_bound (z + 2 ^ (c_bits T - 1)) _ Hpos). lia.
  - pose proof (Z.mod_pos_bound z _ Hpos). lia.
Qed.

(** Promotion keeps every value. *)
Lemma promote_range (T : c_type) (z : Z) :
  c_in_range T z -> in_range (promote T) z.
Proof.
  unfold c_in_range, in_range.
  destruct T as [| | | | ty]; cbn; try lia; trivial.
Qed.

Lemma common_same (ty : int_type) : common ty ty = ty.
Proof. destruct ty; reflexivity. Qed.

Lemma common_absorb_l (a b : int_type) : common (common a b) a = common a b.
Proof. destruct a, b; reflexivity. Qed.

Lemma common_absorb_r (a b : int_type) : common (common a b) b = common a b.
Proof. destruct a, b; reflexivity. Qed.

Lemma common_absorb_left (a b : int_type) : common a (common a b) = common a b.
Proof. destruct a, b; reflexivity. Qed.

Lemma common_int (ty : int_type) : common ty Int32 = ty.
Proof. destruct ty; reflexivity. Qed.

(** A signed common type holds every value of the two types. *)
Lemma common_signed_range_l (a b : int_type) (z : Z) :
  is_signed (common a b) = true -> in_range a z -> in_range (common a b) z.
Proof.
  unfold in_range. destruct a, b; cbn; intros Hs Hz; try discriminate; lia.
Qed.

Lemma common_signed_range_r (a b : int_type) (z : Z) :
  is_signed (common a b) = true -> in_range b z -> in_range (common a b) z.
Proof.
  unfold in_range. destruct a, b; cbn; intros Hs Hz; try discriminate; lia.
Qed.

(** An unsigned common type holds every non-negative value of the two. *)
Lemma common_unsigned_range_l (a b : int_type) (z : Z) :
  is_signed (common a b) = false -> 0 <= z <= max_value a ->
  0 <= z <= max_value (common a b).
Proof. destruct a, b; cbn; intros Hs Hz; try discriminate; lia. Qed.

Lemma common_unsigned_range_r (a b : int_type) (z : Z) :
  is_signed (common a b) = false -> 0 <= z <= max_value b ->
  0 <= z <= max_value (common a b).
Proof. destruct a, b; cbn; intros Hs Hz; try discriminate; lia. Qed.

Lemma promote_max (T : c_type) : c_max T <= max_value (promote T).
Proof. destruct T as [| | | | []]; cbn; lia. Qed.

Lemma convert_arith_in_range (C : int_type) (z : Z) :
  in_range C z -> convert (Arith C) z = z.
Proof. intros Hz. now apply convert_in_range. Qed.

(** An operation on values of the common type [K] whose exact result is a
    value of that type. *)
Lemma binary_add_exact (K tx ty : int_type) (x y : Z) :
  common tx ty = K ->
  in_range K x -> in_range K y -> in_range K (x + y) ->
  binary add (tx, x) (ty, y) = Some (K, x + y).
Proof.
  intros <- Hx Hy Hxy. unfold binary, add. simpl.
  rewrite !convert_arith_in_range by assumption.
  now rewrite arith_in_range.
Qed.

Lemma binary_sub_exact (K tx ty : int_type) (x y : Z) :
  common tx ty = K ->
  in_range K x -> in_range K y -> in_range K (x - y) ->
  binary sub (tx, x) (ty, y) = Some (K, x - y).
Proof.
  intros <- Hx Hy Hxy. unfold binary, sub. simpl.
  rewrite !convert_arith_in_range by assumption.
  now rewrite arith_in_range.
Qed.

Lemma binary_rem_exact (K tx ty : int_type) (x y : Z) :
  common tx ty = K ->
  in_range K x -> in_range K y -> 0 < y ->
  binary rem (tx, x) (ty, y) = Some (K, Z.rem x y).
Proof.
  intros <- Hx Hy Hpos. unfold binary. simpl.
  rewrite !convert_arith_in_range by assumption.
  now rewrite rem_pos_divisor.
Qed.

Lemma one_in_range (ty : int_type) : in_range ty 1.
Proof. unfold in_range. destruct ty; cbn; lia. Qed.

(** The truncated remainder lies between the dividend and zero. *)
Lemma rem_between (a b : Z) :
  0 < b ->
  (0 <= a -> 0 <= Z.rem a b <= a) /\ (a <= 0 -> a <= Z.rem a b <= 0).
Proof.
  intros Hb. split; intros Ha.
  - rewrite Z.rem_mod_nonneg by lia.
    pose proof (Z.mod_pos_bound a b Hb). pose proof (Z.mod_le a b Ha Hb). lia.
  - replace a with (- - a) at 2 3 by lia.
    rewrite Z.rem_opp_l by lia. rewrite Z.rem_mod_nonneg by lia.
    pose proof (Z.mod_pos_bound (- a) b Hb).
    assert (- a mod b <= - a) by (apply Z.mod_le; lia). lia.
Qed.

End TemplateFacts.

Section TemplateSigned.
Import CInt CIntFacts CIntRange Template TemplateFacts.

Variables T1 T2 : c_type.

Local Abbreviation C := (common (promote T1) (promote T2)).

(** The instantiations at which the usual arithmetic conversions give a
    signed common type. *)
Hypothesis signed_common : is_signed C = true.

Variables value alignment : Z.
Hypothesis value_range : c_in_range T1 value.
Hypothesis alignment_range : 0 < alignment <= c_max T2.

Lemma c_min_nonpos (T : c_type) : c_min T <= 0.
Proof. destruct T as [| | | | []]; cbv; congruence. Qed.

Lemma c_max_nonneg (T : c_type) : 0 <= c_max T.
Proof. destruct T as [| | | | []]; cbv; congruence. Qed.

Lemma value_in_common : in_range C value.
Proof.
  apply common_signed_range_l; [exact signed_common |].
  now apply promote_range.
Qed.

Lemma alignment_in_common : in_range C alignment.
Proof.
  apply common_signed_range_r; [exact signed_common |].
  apply promote_range. pose proof (c_min_nonpos T2).
  unfold c_in_range. lia.
Qed.

Lemma T1_in_common (z : Z) : c_in_range T1 z -> in_range C z.
Proof.
  intros Hz. apply common_signed_range_l; [exact signed_common |].
  now apply promote_range.
Qed.

Lemma floor_aligned_signed_exact :
  Template.floor_aligned T1 T2 value alignment
  = Some (value - Z.rem value alignment).
Proof.
  pose proof value_in_common as Hv. pose proof alignment_in_common as Ha.
  pose proof value_range as Hvr.
  pose proof (c_min_nonpos T1) as Hmin. pose proof (c_max_nonneg T1) as Hmax.
  pose proof (min_value_nonpos C) as HminC.
  pose proof (max_value_nonneg C) as HmaxC.
  destruct alignment_range as [Hpos _].
  destruct (rem_between value alignment Hpos) as [Hnn Hnp].
  assert (Hres : c_in_range T1 (value - Z.rem value alignment)).
  { unfold c_in_range in *. destruct (Z.le_ge_cases 0 value); lia. }
  assert (Hrem : in_range C (Z.rem value alignment)).
  { unfold in_range in *. destruct (Z.le_ge_cases 0 value); lia. }
  unfold Template.floor_aligned, arg.
  rewrite (binary_rem_exact C) by (reflexivity || assumption).
  cbn [bind].
  rewrite (binary_sub_exact C);
    [| apply common_absorb_left | exact Hv | exact Hrem | now apply T1_in_common].
  cbn [bind snd]. now rewrite convert_in_range.
Qed.

Hypothesis sum_fits : value + alignment <= c_max T1.

Lemma ceil_aligned_signed_exact :
  Template.ceil_aligned T1 T2 value alignment
  = Some (value + alignment - 1 - Z.rem (value + alignment - 1) alignment).
Proof.
  pose proof value_in_common as Hv. pose proof alignment_in_common as Ha.
  pose proof value_range as Hvr. pose proof sum_fits as Hfit.
  pose proof (c_min_nonpos T1) as Hmin. pose proof (c_max_nonneg T1) as Hmax.
  pose proof (min_value_nonpos C) as HminC.
  pose proof (max_value_nonneg C) as HmaxC.
  destruct alignment_range as [Hpos Hamax].
  destruct (rem_between (value + alignment - 1) alignment Hpos) as [Hnn Hnp].
  set (s1 := value + alignment - 1) in *.
  assert (Hs : c_in_range T1 (value + alignment))
    by (unfold c_in_range in *; lia).
  assert (Hs1 : c_in_range T1 s1) by (unfold c_in_range, s1 in *; lia).
  assert (Hres : c_in_range T1 (s1 - Z.rem s1 alignment)).
  { unfold c_in_range in *. destruct (Z.le_ge_cases 0 s1); lia. }
  pose proof (T1_in_common _ Hs) as Hs'.
  pose proof (T1_in_common _ Hs1) as Hs1'.
  pose proof (T1_in_common _ Hres) as Hres'.
  pose proof (one_in_range C) as H1.
  assert (Hrem : in_range C (Z.rem s1 alignment)).
  { unfold in_range in *. destruct (Z.le_ge_cases 0 s1); lia. }
  assert (Hrem1 : in_range C (Z.rem s1 alignment + 1)).
  { unfold in_range in *. destruct (Z.le_ge_cases 0 s1); lia. }
  assert (Hfinal : value + alignment - (Z.rem s1 alignment + 1)
                   = s1 - Z.rem s1 alignment) by (unfold s1; lia).
  unfold Template.ceil_aligned, arg, one.
  rewrite (binary_add_exact C) by (reflexivity || assumption).
  cbn [bind].
  rewrite (binary_sub_exact C) by (apply common_int || assumption).
  cbn [bind]. fold s1.
  rewrite (binary_rem_exact C) by (apply common_absorb_r || assumption).
  cbn [bind].
  rewrite (binary_add_exact C) by (apply common_int || assumption).
  cbn [bind].
  rewrite (binary_sub_exact C);
    [| apply common_same | exact Hs' | exact Hrem1 | now rewrite Hfinal].
  cbn [bind snd]. rewrite Hfinal. now rewrite convert_in_range.
Qed.

Lemma ceil_modulo_signed_exact :
  Template.ceil_modulo T1 T2 value alignment
  = Some (alignment * ((value + alignment - 1) / alignment)).
Proof.
  pose proof value_in_common as Hv. pose proof alignment_in_common as Ha.
  pose proof value_range as Hvr. pose proof sum_fits as Hfit.
  pose proof (c_min_nonpos T1) as Hmin. pose proof (c_max_nonneg T1) as Hmax.
  pose proof (min_value_nonpos C) as HminC.
  pose proof (max_value_nonneg C) as HmaxC.
  destruct alignment_range as [Hpos Hamax].
  destruct (rem_between (value + alignment - 1) alignment Hpos) as [Hnn Hnp].
  pose proof (rem_adjusted (value + alignment - 1) alignment Hpos) as Hadj.
  pose proof (Z.mod_pos_bound (value + alignment - 1) alignment Hpos) as Hmod.
  pose proof (Z.div_mod (value + alignment - 1) alignment) as Hdm.
  set (s1 := value + alignment - 1) in *.
  assert (Hs : c_in_range T1 (value + alignment))
    by (unfold c_in_range in *; lia).
  assert (Hs1 : c_in_range T1 s1) by (unfold c_in_range, s1 in *; lia).
  assert (Hx : c_in_range T1 (Z.rem s1 alignment)).
  { unfold c_in_range in *. destruct (Z.le_ge_cases 0 s1); lia. }
  assert (Hres : c_in_range T1 (alignment * (s1 / alignment))).
  { unfold c_in_range, s1 in *. lia. }
  pose proof (T1_in_common _ Hs) as Hs'.
  pose proof (T1_in_common _ Hs1) as Hs1'.
  pose proof (T1_in_common _ Hx) as Hx'.
  pose proof (T1_in_common _ Hres) as Hres'.
  pose proof (one_in_range C) as H1.
  assert (Hm : in_range C (s1 mod alignment))
    by (unfold in_range in *; lia).
  assert (Hm1 : in_range C (s1 mod alignment + 1))
    by (unfold in_range in *; lia).
  assert (Hfinal : value + alignment - (s1 mod alignment + 1)
                   = alignment * (s1 / alignment)) by (unfold s1 in *; lia).
  assert (HC : common (common (promote T1) (promote T2)) (promote T1) = C)
    by apply common_absorb_l.
  unfold Template.ceil_modulo, arg, one.
  rewrite (binary_add_exact C) by (reflexivity || assumption).
  cbn [bind].
  rewrite (binary_sub_exact C) by (apply common_int || assumption).
  cbn [bind]. fold s1.
  rewrite (binary_rem_exact C) by (apply common_absorb_r || assumption).
  cbn [bind fst snd]. rewrite HC.
  rewrite (convert_in_range T1) by exact Hx.
  assert (Hcond :
    (if Z.rem s1 alignment <? 0
     then CInt.bind
            (binary add (promote T1, Z.rem s1 alignment) (promote T2, alignment))
            (fun xa => Some (C, convert (Arith C) (snd xa)))
     else Some (C, convert (Arith C) (Z.rem s1 alignment)))
    = Some (C, s1 mod alignment)).
  { destruct (Z.ltb_spec (Z.rem s1 alignment) 0) as [Hneg | Hnonneg].
    - rewrite (binary_add_exact C);
        [| reflexivity | exact Hx' | exact Ha | now rewrite Hadj].
      cbn [bind snd]. rewrite Hadj.
      now rewrite convert_arith_in_range.
    - rewrite Hadj. now rewrite convert_arith_in_range. }
  rewrite Hcond. cbn [bind].
  rewrite (binary_add_exact C) by (apply common_int || assumption).
  cbn [bind].
  rewrite (binary_sub_exact C);
    [| apply common_same | exact Hs' | exact Hm1 | now rewrite Hfinal].
  cbn [bind snd]. rewrite Hfinal. now rewrite convert_in_range.
Qed.

End TemplateSigned.

Section TemplateSignedFacts.
Import CInt CIntFacts CIntRange Template TemplateFacts.

(** [floor_aligned<T1, T2>] where the common type of the two argument types
    is signed: on a negative value and a positive alignment it rounds
    towards zero, not down, and returns the least multiple of the alignment
    that is at least the value. *)
Theorem floor_aligned_signed_negative_rounds_up
  (T1 T2 : c_type) (value alignment : Z) :
  is_signed (common (promote T1) (promote T2)) = true ->
  c_min T1 <= value < 0 -> 0 < alignment <= c_max T2 ->
  exists r : Z,
    Template.floor_aligned T1 T2 value alignment = Some r
    /\ (alignment | r)
    /\ value <= r <= 0
    /\ (forall m : Z, (alignment | m) -> value <= m -> r <= m).
Proof.
  intros Hs [Hlo Hneg] Ha.
  pose proof (c_max_nonneg T1) as Hmax.
  exists (value - Z.rem value alignment).
  split.
  { apply floor_aligned_signed_exact; [exact Hs | | exact Ha].
    unfold c_in_range; lia. }
  destruct Ha as [Hpos _].
  assert (Hrem : Z.rem value alignment = - (- value mod alignment)).
  { replace value with (- - value) at 1 by lia.
    rewrite Z.rem_opp_l by lia. rewrite Z.rem_mod_nonneg by lia. reflexivity. }
  rewrite Hrem.
  pose proof (Z.div_mod (- value) alignment) as Hdm.
  destruct (round_down_greatest_below (- value) alignment Hpos)
    as ([k Hk] & Hbnd & Hgreatest).
  assert (Hr : value - - (- value mod alignment)
               = - (alignment * (- value / alignment))) by lia.
  rewrite Hr. split; [| split].
  - exists (- k). lia.
  - split; [lia |].
    assert (0 <= - value / alignment) by (apply Z.div_pos; lia).
    nia.
  - intros m [j ->] Hm.
    specialize (Hgreatest (- j * alignment)).
    assert (- j * alignment <= alignment * (- value / alignment)).
    { apply Hgreatest; [exists (- j); reflexivity | lia]. }
    lia.
Qed.

(** [ceil_modulo<T1, T2>] where the common type of the two argument types
    is signed: for every value of [T1], negative ones too, and a positive
    alignment whose sum with the value is a value of [T1], the result is
    the least multiple of the alignment that is at least the value. *)
Theorem ceil_modulo_signed_least_multiple
  (T1 T2 : c_type) (value alignment : Z) :
  is_signed (common (promote T1) (promote T2)) = true ->
  c_in_range T1 value -> 0 < alignment <= c_max T2 ->
  value + alignment <= c_max T1 ->
  exists r : Z,
    Template.ceil_modulo T1 T2 value alignment = Some r
    /\ (alignment | r)
    /\ value <= r < value + alignment
    /\ (forall m : Z, (alignment | m) -> value <= m -> r <= m).
Proof.
  intros Hs Hv Ha Hfit.
  exists (alignment * ((value + alignment - 1) / alignment)).
  split; [now apply ceil_modulo_signed_exact |].
  apply round_down_least_above. lia.
Qed.

(** [ceil_aligned<T1, T2>] where the common type of the two argument types
    is signed, on negative values: when the value is at most [- alignment]
    and [value - 1] is no multiple of the alignment, the result is a
    multiple of the alignment, but not the least one above the value: one
    alignment less is still at least the value. *)
Theorem ceil_aligned_signed_negative_overshoots
  (T1 T2 : c_type) (value alignment : Z) :
  is_signed (common (promote T1) (promote T2)) = true ->
  c_min T1 <= value -> 0 < alignment <= c_max T2 -> value <= - alignment ->
  ~ (alignment | value - 1) ->
  exists r : Z,
    Template.ceil_aligned T1 T2 value alignment = Some r
    /\ (alignment | r)
    /\ value <= r - alignment.
Proof.
  intros Hs Hlo Ha Hneg Hndiv.
  pose proof (c_max_nonneg T1) as Hmax.
  exists (value + alignment - 1 - Z.rem (value + alignment - 1) alignment).
  split.
  { apply ceil_aligned_signed_exact; [exact Hs | | exact Ha |];
      unfold c_in_range; lia. }
  destruct Ha as [Hpos _].
  set (t := 1 - value - alignment).
  assert (Ht : 0 < t) by (unfold t; lia).
  pose proof (Z.mod_pos_bound t alignment Hpos) as Hr.
  pose proof (Z.div_mod t alignment) as Hdm.
  assert (Hrem : Z.rem (value + alignment - 1) alignment = - (t mod alignment)).
  { replace (value + alignment - 1) with (- t) by (unfold t; lia).
    rewrite Z.rem_opp_l by lia. rewrite Z.rem_mod_nonneg by lia. reflexivity. }
  assert (Hnz : t mod alignment <> 0).
  { intros Hz. apply Hndiv. exists (- (t / alignment) - 1). unfold t in *. lia. }
  rewrite Hrem. split.
  - exists (- (t / alignment)). unfold t in *. lia.
  - unfold t in *. lia.
Qed.

End TemplateSignedFacts.

Section TemplateUnsigned.
Import CInt CIntFacts CIntRange Template TemplateFacts.

Lemma max_value_unsigned (K : int_type) :
  is_signed K = false -> max_value K = 2 ^ bits K - 1 /\ min_value K = 0.
Proof. intros Hs. unfold max_value, min_value. now rewrite Hs. Qed.

(** At an unsigned common type the operation is exact modulo [2 ^ bits]. *)
Lemma binary_unsigned (op : Z -> Z -> Z) (K tx ty : int_type) (x y : Z) :
  common tx ty = K -> is_signed K = false ->
  0 <= x <= max_value K -> 0 <= y <= max_value K ->
  binary (fun C a b => arith C (op a b)) (tx, x) (ty, y)
  = Some (K, op x y mod 2 ^ bits K).
Proof.
  intros <- Hs Hx Hy. unfold binary. simpl.
  destruct (max_value_unsigned _ Hs) as [_ Hmin].
  rewrite !convert_arith_in_range by (unfold in_range; lia).
  unfold arith. now rewrite Hs.
Qed.

(** [ceil_aligned<T1, T2>] where the common type of the two argument types
    is unsigned: when [value + alignment] exceeds the modulus of that type,
    the sum wraps and the result is below the value. *)
Theorem ceil_aligned_unsigned_common_overflow
  (T1 T2 : c_type) (value alignment : Z) :
  is_signed (common (promote T1) (promote T2)) = false ->
  0 <= value <= c_max T1 -> 0 < alignment <= c_max T2 ->
  2 ^ bits (common (promote T1) (promote T2)) < value + alignment ->
  exists r : Z,
    Template.ceil_aligned T1 T2 value alignment = Some r /\ 0 <= r < value.
Proof.
  set (C := common (promote T1) (promote T2)).
  intros Hs [Hv Hvmax] [Ha Hamax] Hover.
  pose proof (promote_max T1) as HP1. pose proof (promote_max T2) as HP2.
  assert (HvC : 0 <= value <= max_value C)
    by (apply common_unsigned_range_l; [exact Hs | lia]).
  assert (HaC : 0 <= alignment <= max_value C)
    by (apply common_unsigned_range_r; [exact Hs | lia]).
  destruct (max_value_unsigned C Hs) as [HmaxC HminC].
  set (M := 2 ^ bits C) in *.
  set (s := value + alignment - M).
  assert (Hs0 : (value + alignment) mod M = s).
  { symmetry. apply Z.mod_unique_pos with (q := 1); unfold s; lia. }
  pose proof (Z.mod_pos_bound (s - 1) alignment Ha) as Hr.
  assert (Hle : (s - 1) mod alignment <= s - 1)
    by (apply Z.mod_le; unfold s; lia).
  pose proof (c_min_nonpos T1) as HminT1.
  exists (s - 1 - (s - 1) mod alignment).
  split; [| unfold s in *; lia].
  unfold Template.ceil_aligned, arg, one, add, sub.
  rewrite (binary_unsigned Z.add C) by (reflexivity || exact Hs || lia).
  fold M. rewrite Hs0. cbn [bind].
  rewrite (binary_unsigned Z.sub C) by (apply common_int || exact Hs || (unfold s; lia)).
  fold M. rewrite (Z.mod_small (s - 1) M) by (unfold s; lia). cbn [bind].
  rewrite (binary_rem_exact C);
    [| apply common_absorb_r | unfold in_range, s; lia
     | unfold in_range; lia | exact Ha ].
  rewrite Z.rem_mod_nonneg by (unfold s; lia). cbn [bind].
  rewrite (binary_unsigned Z.add C) by (apply common_int || exact Hs || lia).
  fold M.
  rewrite (Z.mod_small ((s - 1) mod alignment + 1) M) by (unfold s in *; lia).
  cbn [bind].
  rewrite (binary_unsigned Z.sub C) by (apply common_same || exact Hs || (unfold s in *; lia)).
  fold M. cbn [bind snd].
  rewrite (Z.mod_small (s - ((s - 1) mod alignment + 1)) M)
    by (unfold s in *; lia).
  rewrite convert_in_range by (unfold c_in_range, s in *; lia).
  f_equal. lia.
Qed.

End TemplateUnsigned.

Section AllMatchInt.

Context {A : Type}.

(** One step of the loop: [res &= r] keeps [res] only if the lowest bit of
    the result [r] is set. *)
Lemma and_assign_step (res : bool) (r : Z) :
  negb (Z.land (Z.b2z res) r =? 0) = res && Z.odd r.
Proof.
  destruct res; simpl Z.b2z.
  - rewrite Z.land_comm. change 1 with (Z.ones 1).
    rewrite Z.land_ones by lia. change (2 ^ 1) with 2.
    rewrite <- Z.bit0_mod, Z.bit0_odd.
    now destruct (Z.odd r).
  - now rewrite Z.land_0_l.
Qed.

Lemma and_assign_fold (f : A -> Z) (range : list A) (res : bool) :
  fold_left
    (fun (res : bool) (x : A) => negb (Z.land (Z.b2z res) (f x) =? 0))
    range res
  = res && forallb (fun x => Z.odd (f x)) range.
Proof.
  revert res. induction range as [| x range IH]; intros res; simpl.
  - now rewrite andb_true_r.
  - rewrite IH, and_assign_step. now rewrite andb_assoc.
Qed.

(** With a predicate that returns [bool] the loop is the one on
    booleans. *)
Lemma all_match_predicate_bool (p : A -> bool) (range : list A) :
  Template.all_match_predicate range (fun x => Z.b2z (p x))
  = all_match_predicate range p.
Proof.
  unfold Template.all_match_predicate, all_match_predicate.
  rewrite and_assign_fold, and_fold_from. f_equal.
  induction range as [| x range IH]; simpl; [reflexivity |].
  rewrite IH. now destruct (p x).
Qed.

(** [all_match_predicate] returns true exactly when the lowest bit of the
    predicate's result is set on every element of the range: for a
    predicate that returns [bool], exactly when it holds of every element
    (hence true on the empty range, false as soon as it fails on an
    element); a predicate that returns an [int] without that bit, for
    instance 2 or 1024, counts as failed although the value is non-zero. *)
Theorem all_match_predicate_lowest_bit (range : list A) (f : A -> Z) :
  (Template.all_match_predicate range f = true
   <-> forall x : A, In x range -> Z.odd (f x) = true)
  /\ (forall p : A -> bool,
        Template.all_match_predicate range (fun x => Z.b2z (p x)) = true
        <-> forall x : A, In x range -> p x = true)
  /\ (forall p : A -> bool,
        Template.all_match_predicate range (fun x => Z.b2z (p x)) = false
        <-> exists x : A, In x range /\ p x = false)
  /\ (forall x : A, In x range -> f x <> 0 -> Z.even (f x) = true ->
        Template.all_match_predicate range f = false).
Proof.
  assert (Hmain : forall g : A -> Z,
             Template.all_match_predicate range g = true
             <-> forall x : A, In x range -> Z.odd (g x) = true).
  { intros g. unfold Template.all_match_predicate.
    rewrite and_assign_fold, andb_true_l. apply forallb_forall. }
  assert (Hbool : forall p : A -> bool,
             Template.all_match_predicate range (fun x => Z.b2z (p x)) = true
             <-> forall x : A, In x range -> p x = true).
  { intros p. rewrite Hmain. split; intros Hall x Hx; specialize (Hall x Hx).
    - destruct (p x); [reflexivity | discriminate].
    - now rewrite Hall. }
  split; [apply Hmain | split; [exact Hbool | split]].
  - intros p. split.
    + intros Hfalse.
      destruct (forallb p range) eqn:Hfa.
      * rewrite forallb_forall in Hfa. apply Hbool in Hfa. congruence.
      * clear Hfalse Hbool Hmain. induction range as [| y l IH]; [discriminate |].
        simpl in Hfa. apply andb_false_iff in Hfa. destruct Hfa as [Hy | Hl].
        -- exists y. split; [now left | exact Hy].
        -- destruct (IH Hl) as (x & Hx & Hpx). exists x. split; [now right | exact Hpx].
    + intros (x & Hx & Hpx).
      destruct (Template.all_match_predicate range (fun x => Z.b2z (p x))) eqn:Hall;
        [| reflexivity].
      apply Hbool with (x := x) in Hall; [congruence | exact Hx].
  - intros x Hx _ Heven.
    destruct (Template.all_match_predicate range f) eqn:Hall; [| reflexivity].
    apply Hmain with (x := x) in Hall; [| exact Hx].
    rewrite <- Z.negb_even, Heven in Hall. discriminate.
Qed.

End AllMatchInt.

(** ** The single-type definitions are the templates at [T1 = T2] *)

Section SameType.
Import CInt CIntFacts CIntRange TemplateFacts.

Variable ty : int_type.

Lemma arith_result_range (z r : Z) : arith ty z = Some r -> in_range ty r.
Proof.
  unfold arith, representable, in_range.
  destruct (is_signed ty) eqn:Hs.
  - destruct (Z.leb_spec (min_value ty) z), (Z.leb_spec z (max_value ty));
      simpl; intros [= <-]; lia.
  - intros [= <-]. unfold min_value, max_value. rewrite Hs.
    assert (0 < 2 ^ bits ty) by (destruct ty; reflexivity).
    pose proof (Z.mod_pos_bound z (2 ^ bits ty)). lia.
Qed.

Lemma rem_result_range (a b r : Z) :
  in_range ty a -> rem ty a b = Some r -> in_range ty r.
Proof.
  unfold rem, in_range. intros Ha.
  pose proof (min_value_nonpos ty). pose proof (max_value_nonneg ty).
  destruct (Z.eqb_spec b 0) as [| Hb]; [discriminate |].
  destruct (is_signed ty && (a =? min_value ty) && (b =? -1));
    [discriminate |].
  intros [= <-].
  assert (Hrem : Z.rem a b = Z.rem a (Z.abs b)).
  { destruct (Z.abs_spec b) as [[_ ->] | [_ ->]]; [reflexivity |].
    now rewrite Z.rem_opp_r. }
  rewrite Hrem.
  destruct (rem_between a (Z.abs b)) as [Hnn Hnp]; [lia |].
  destruct (Z.le_ge_cases 0 a); lia.
Qed.

Lemma div_result_range (a b r : Z) :
  in_range ty a -> in_range ty b -> div ty a b = Some r -> in_range ty r.
Proof.
  unfold div, in_range. intros Ha Hb'.
  pose proof (min_value_nonpos ty). pose proof (max_value_nonneg ty).
  destruct (Z.eqb_spec b 0) as [| Hb]; [discriminate |].
  assert (Hmm : is_signed ty = true -> min_value ty = - max_value ty - 1).
  { destruct ty; cbn; intros; try discriminate; lia. }
  assert (Hun : is_signed ty = false -> min_value ty = 0).
  { intros Hs. unfold min_value. now rewrite Hs. }
  pose proof (Z.quot_rem' a b) as Hqr.
  destruct (is_signed ty) eqn:Hs; simpl.
  - specialize (Hmm eq_refl).
    destruct (Z.eqb_spec a (min_value ty)) as [Hamin | Hamin];
      destruct (Z.eqb_spec b (-1)) as [Hb1 | Hb1]; simpl;
      try discriminate; intros [= <-].
    all: destruct (Z.le_gt_cases 0 a), (Z.lt_ge_cases 0 b).
    all: try (pose proof (Z.rem_bound_pos_pos a b));
         try (pose proof (Z.rem_bound_neg_pos a b));
         try (pose proof (Z.rem_bound_pos_neg a b));
         try (pose proof (Z.rem_bound_neg_neg a b)).
    all: nia.
  - specialize (Hun eq_refl). intros [= <-].
    pose proof (Z.rem_bound_pos_pos a b). nia.
Qed.

Lemma binary_same (op : int_type -> Z -> Z -> option Z) (x y : Z) :
  in_range ty x -> in_range ty y ->
  Template.binary op (ty, x) (ty, y)
  = match op ty x y with Some r => Some (ty, r) | None => None end.
Proof.
  intros Hx Hy. unfold Template.binary. simpl. rewrite common_same.
  now rewrite !convert_arith_in_range.
Qed.

Lemma binary_one (op : int_type -> Z -> Z -> option Z) (x : Z) :
  in_range ty x ->
  Template.binary op (ty, x) Template.one
  = match op ty x 1 with Some r => Some (ty, r) | None => None end.
Proof.
  intros Hx. unfold Template.binary, Template.one. simpl. rewrite common_int.
  rewrite !convert_arith_in_range; auto using one_in_range.
Qed.

Variables value alignment : Z.
Hypothesis value_range : in_range ty value.
Hypothesis alignment_range : in_range ty alignment.

Lemma ceil_aligned_same_type :
  Template.ceil_aligned (Template.Arith ty) (Template.Arith ty) value alignment
  = ceil_aligned ty value alignment.
Proof.
  unfold Template.ceil_aligned, ceil_aligned, Template.arg, Template.promote.
  rewrite binary_same by assumption.
  destruct (add ty value alignment) as [s |] eqn:Es; [| reflexivity].
  apply arith_result_range in Es. cbn [bind].
  rewrite binary_one by assumption.
  destruct (sub ty s 1) as [s1 |] eqn:Es1; [| reflexivity].
  apply arith_result_range in Es1. cbn [bind].
  rewrite binary_same by assumption.
  destruct (rem ty s1 alignment) as [r |] eqn:Er; [| reflexivity].
  apply rem_result_range in Er; [| assumption]. cbn [bind].
  rewrite binary_one by assumption.
  destruct (add ty r 1) as [r1 |] eqn:Er1; [| reflexivity].
  apply arith_result_range in Er1. cbn [bind].
  rewrite binary_same by assumption.
  destruct (sub ty s r1) as [e |] eqn:Ee; [| reflexivity].
  apply arith_result_range in Ee. cbn [bind snd].
  now rewrite convert_arith_in_range.
Qed.

Lemma ceil_divide_same_type :
  Template.ceil_divide (Template.Arith ty) (Template.Arith ty) value alignment
  = ceil_divide ty value alignment.
Proof.
  unfold Template.ceil_divide, ceil_divide, Template.arg, Template.promote.
  rewrite binary_same by assumption.
  destruct (add ty value alignment) as [s |] eqn:Es; [| reflexivity].
  apply arith_result_range in Es. cbn [bind].
  rewrite binary_one by assumption.
  destruct (sub ty s 1) as [s1 |] eqn:Es1; [| reflexivity].
  apply arith_result_range in Es1. cbn [bind].
  rewrite binary_same by assumption.
  destruct (div ty s1 alignment) as [e |] eqn:Ee; [| reflexivity].
  apply div_result_range in Ee; [| assumption | assumption]. cbn [bind snd].
  now rewrite convert_arith_in_range.
Qed.

Lemma floor_aligned_same_type :
  Template.floor_aligned (Template.Arith ty) (Template.Arith ty) value alignment
  = floor_aligned ty value alignment.
Proof.
  unfold Template.floor_aligned, floor_aligned, Template.arg, Template.promote.
  rewrite binary_same by assumption.
  destruct (rem ty value alignment) as [r |] eqn:Er; [| reflexivity].
  apply rem_result_range in Er; [| assumption]. cbn [bind].
  rewrite binary_same by assumption.
  destruct (sub ty value r) as [e |] eqn:Ee; [| reflexivity].
  apply arith_result_range in Ee. cbn [bind snd].
  now rewrite convert_arith_in_range.
Qed.

Lemma ceil_modulo_same_type :
  Template.ceil_modulo (Template.Arith ty) (Template.Arith ty) value alignment
  = ceil_modulo ty value alignment.
Proof.
  unfold Template.ceil_modulo, ceil_modulo, Template.arg, Template.promote.
  rewrite !binary_same by assumption.
  destruct (add ty value alignment) as [s |] eqn:Es; [| reflexivity].
  apply arith_result_range in Es. cbn [bind].
  rewrite binary_one by assumption.
  destruct (sub ty s 1) as [s1 |] eqn:Es1; [| reflexivity].
  apply arith_result_range in Es1. cbn [bind].
  rewrite binary_same by assumption.
  destruct (rem ty s1 alignment) as [x |] eqn:Ex; [| reflexivity].
  apply rem_result_range in Ex; [| assumption]. cbn [bind fst snd].
  rewrite !common_same.
  rewrite !(convert_arith_in_range ty x) by assumption.
  rewrite binary_same by assumption.
  assert (Htail : forall x' : Z, in_range ty x' ->
            CInt.bind (Template.binary add (ty, x') Template.one)
              (fun c1 =>
                 CInt.bind (Template.binary sub (ty, s) c1)
                   (fun e => Some (Template.convert (Template.Arith ty) (snd e))))
            = CInt.bind (add ty x' 1) (fun x1 => sub ty s x1)).
  { intros x' Hx'.
    rewrite binary_one by assumption.
    destruct (add ty x' 1) as [x1 |] eqn:Ex1; [| reflexivity].
    apply arith_result_range in Ex1. cbn [bind].
    rewrite binary_same by assumption.
    destruct (sub ty s x1) as [e |] eqn:Ee; [| reflexivity].
    apply arith_result_range in Ee. cbn [bind snd].
    now rewrite convert_arith_in_range. }
  destruct (x <? 0).
  - destruct (add ty x alignment) as [xa |] eqn:Exa; [| reflexivity].
    apply arith_result_range in Exa. cbn [bind snd].
    rewrite convert_arith_in_range by assumption.
    now apply Htail.
  - cbn [bind]. now apply Htail.
Qed.

End SameType.

(** ** Runs of the templates at independent argument types *)

Lemma floor_aligned_signed_negative_rounds_up_witness :
  exists r : Z,
    Template.floor_aligned (Template.Arith CInt.Int64) (Template.Arith CInt.UInt32)
      (-5) 4 = Some r
    /\ (4 | r)
    /\ -5 <= r <= 0
    /\ (forall m : Z, (4 | m) -> -5 <= m -> r <= m).
Proof.
  apply (floor_aligned_signed_negative_rounds_up
           (Template.Arith CInt.Int64) (Template.Arith CInt.UInt32) (-5) 4).
  - reflexivity.
  - cbn; lia.
  - cbn; lia.
Defined.

Lemma ceil_modulo_signed_least_multiple_witness :
  exists r : Z,
    Template.ceil_modulo (Template.Arith CInt.Int64) (Template.Arith CInt.UInt32)
      (-5) 3 = Some r
    /\ (3 | r)
    /\ -5 <= r < -5 + 3
    /\ (forall m : Z, (3 | m) -> -5 <= m -> r <= m).
Proof.
  apply (ceil_modulo_signed_least_multiple
           (Template.Arith CInt.Int64) (Template.Arith CInt.UInt32) (-5) 3).
  - reflexivity.
  - unfold Template.c_in_range; cbn; lia.
  - cbn; lia.
  - cbn; lia.
Defined.

Lemma ceil_aligned_signed_negative_overshoots_witness :
  exists r : Z,
    Template.ceil_aligned Template.I16 Template.U8 (-5) 4 = Some r
    /\ (4 | r)
    /\ -5 <= r - 4.
Proof.
  apply (ceil_aligned_signed_negative_overshoots Template.I16 Template.U8 (-5) 4).
  - reflexivity.
  - cbn; lia.
  - cbn; lia.
  - lia.
  - intros [k Hk]; lia.
Defined.

Lemma ceil_aligned_unsigned_common_overflow_witness :
  exists r : Z,
    Template.ceil_aligned (Template.Arith CInt.UInt64) (Template.Arith CInt.Int32)
      18446744073709551615 4 = Some r
    /\ 0 <= r < 18446744073709551615.
Proof.
  apply (ceil_aligned_unsigned_common_overflow
           (Template.Arith CInt.UInt64) (Template.Arith CInt.Int32)
           18446744073709551615 4).
  - reflexivity.
  - cbn; lia.
  - cbn; lia.
  - cbn; lia.
Defined.

(** Where the common type is unsigned and the value negative, or the
    arguments are narrower than [int], the templates compute otherwise
    than at one signed type. *)
Example template_runs :
  Template.floor_aligned (Template.Arith CInt.Int64) (Template.Arith CInt.UInt64)
    (-5) 4 = Some (-8)
  /\ Template.ceil_aligned (Template.Arith CInt.Int64) (Template.Arith CInt.UInt64)
       (-5) 4 = Some (-4)
  /\ Template.ceil_modulo (Template.Arith CInt.Int64) (Template.Arith CInt.UInt64)
       (-5) 3 = Some (-4)
  /\ Template.ceil_aligned (Template.Arith CInt.UInt32) (Template.Arith CInt.UInt64)
       4294967288 9 = Some 4294967292
  /\ Template.ceil_aligned Template.U8 Template.U8 250 7 = Some 252
  /\ Template.ceil_aligned Template.I16 Template.U8 (-5) 4 = Some 0
  /\ Template.ceil_modulo Template.I8 Template.U8 (-5) 4 = Some (-4).
Proof. repeat split. Qed.

Example all_match_predicate_runs :
  Template.all_match_predicate [1; 2; 3] (fun _ : Z => 1024) = false
  /\ Template.all_match_predicate [1; 2; 3] (fun _ : Z => 2) = false
  /\ Template.all_match_predicate [1; 2; 3] (fun _ : Z => 1) = true
  /\ Template.all_match_predicate [2; 4; 5] (fun x : Z => Z.b2z (Z.even x)) = false
  /\ Template.all_match_predicate [] (fun _ : Z => 0) = true.
Proof. repeat split. Qed.
